(** * The plugin loader of libaudcore (plugin-load.c)

    A shallow embedding of [src/libaudcore/plugin-load.c]: the loader of
    plugin modules ([plugin_load], [plugin2_unload]), the directory scan
    ([scan_plugin_func], [scan_plugins]) and the start-up and shutdown
    sequences ([plugin_system_init], [plugin_system_cleanup]).

    The C file keeps one global list, [loaded_modules], and acts on the
    outside world through GLib, the C library and the plugin registry.  The
    embedding threads the global through a state monad and records every
    outside action, in program order, in a list of events: modules opened
    and closed, hooks of plugins called, lines written to stderr, calls into
    the registry, the mutex taken and released.

    Left out: the debug line of [AUDDBG], and the allocation and release of
    the list cells ([g_slice_new], [g_slice_free], [g_list_free]).  A run is
    sequential; what other threads do in between is not part of the model.

    Layout: the data model and the monad; the pieces of GLib and libaudcore
    the file calls; the program; the vocabulary of the statements; a
    concrete platform; then the properties, and their instances on the
    concrete platform. *)

From Stdlib Require Import ZArith List String Ascii Bool Arith Lia.
From Stdlib Require Import Permutation.
Import ListNotations.

Local Open Scope string_scope.
Local Open Scope Z_scope.
Local Open Scope list_scope.

(** ** Data model *)

(** Modelled from the spec: the enumeration of plugin kinds is declared in
    plugin.h, which is not part of the sources at hand.  The seven kinds are
    those of the data model: Transport, Playlist, Input, Output, Effect,
    General, Visualization. *)
Inductive PluginType : Type :=
  | PLUGIN_TYPE_TRANSPORT
  | PLUGIN_TYPE_PLAYLIST
  | PLUGIN_TYPE_INPUT
  | PLUGIN_TYPE_OUTPUT
  | PLUGIN_TYPE_EFFECT
  | PLUGIN_TYPE_GENERAL
  | PLUGIN_TYPE_VIS.

(** Modelled from the spec: the descriptor a module exports (struct Plugin of
    plugin.h).  [magic] and [version] are C ints.  A hook is [None] when
    [PLUGIN_HAS_FUNC] is false for it; [init = Some r] is a hook whose call
    returns [r]; [cleanup] returns nothing. *)
Record Plugin : Type := mkPlugin {
  magic : Z;
  version : Z;
  type : PluginType;
  name : string;
  init : option bool;
  cleanup : option unit
}.

(** A GModule of GLib: the file it was opened from and the symbols it
    exports.  Only symbols that hold a plugin descriptor matter here. *)
Record GModule : Type := mkGModule {
  file_name : string;
  symbols : list (string * Plugin)
}.

(** [typedef struct { Plugin * header; GModule * module; } LoadedModule;] *)
Record LoadedModule : Type := mkLoadedModule {
  header : Plugin;
  module : GModule
}.

(** The file's global variable.  The other one, the mutex, guards it: a run
    is sequential here, and taking and releasing the mutex are kept as
    events. *)
Record Globals : Type := mkGlobals {
  loaded_modules : list LoadedModule
}.

(** The lines written to stderr, one constructor per [fprintf]. *)
Inductive ErrorLine : Type :=
  | OpenFailed (filename : string)
      (* " *** ERROR: %s could not be loaded: %s" *)
  | NotAPlugin (filename : string)
      (* " *** ERROR: %s is not a valid Audacious plugin." *)
  | IncompatibleVersion (filename : string)
      (* " *** ERROR: %s is not compatible with this version of Audacious." *)
  | InitFailed (filename : string)
      (* " *** ERROR: %s failed to initialize." *)
  | StatFailed (path : string).
      (* "Unable to stat %s: %s" *)

(** Actions on the outside world, in the order the program performs them. *)
Inductive Event : Type :=
  | EvModuleOpen (m : GModule)              (* g_module_open returned m *)
  | EvModuleClose (m : GModule)             (* g_module_close (m) *)
  | EvStderr (e : ErrorLine)                (* fprintf (stderr, ...) *)
  | EvInit (h : Plugin)                     (* h->init () *)
  | EvCleanup (h : Plugin)                  (* h->cleanup () *)
  | EvRegistryLoad                          (* plugin_registry_load () *)
  | EvRegister (path : string) (mtime : Z)  (* plugin_register (path, mtime) *)
  | EvRegistryPrune                         (* plugin_registry_prune () *)
  | EvRegistrySave                          (* plugin_registry_save () *)
  | EvDirForeach (path : string)            (* dir_foreach (path, ...) *)
  | EvMutexLock                             (* pthread_mutex_lock (& mutex) *)
  | EvMutexUnlock.                          (* pthread_mutex_unlock (& mutex) *)

(** ** Decidable equality, used to count events *)

Definition PluginType_eq_dec (a b : PluginType) : {a = b} + {a <> b}.
Proof. decide equality. Defined.

Definition unit_eq_dec (a b : unit) : {a = b} + {a <> b}.
Proof. decide equality. Defined.

Definition Plugin_eq_dec (a b : Plugin) : {a = b} + {a <> b}.
Proof.
  repeat decide equality; auto using PluginType_eq_dec.
Defined.

Definition GModule_eq_dec (a b : GModule) : {a = b} + {a <> b}.
Proof.
  decide equality.
  - apply list_eq_dec. decide equality; auto using Plugin_eq_dec, string_dec.
  - apply string_dec.
Defined.

Definition ErrorLine_eq_dec (a b : ErrorLine) : {a = b} + {a <> b}.
Proof. decide equality; apply string_dec. Defined.

Definition Event_eq_dec (a b : Event) : {a = b} + {a <> b}.
Proof.
  decide equality;
    auto using Z.eq_dec, string_dec, Plugin_eq_dec, GModule_eq_dec,
               ErrorLine_eq_dec.
Defined.

Definition PluginType_eqb (a b : PluginType) : bool :=
  if PluginType_eq_dec a b then true else false.

(** ** The monad: state and an event log *)

Definition M (A : Type) : Type := Globals -> A * Globals * list Event.

Definition ret {A : Type} (a : A) : M A := fun g => (a, g, []).

Definition bind {A B : Type} (c : M A) (k : A -> M B) : M B :=
  fun g =>
    let '(a, g1, l1) := c g in
    let '(b, g2, l2) := k a g1 in
    (b, g2, l1 ++ l2).

Declare Scope m_scope.
Delimit Scope m_scope with m.
Notation "'do' x <- c ; k" := (bind c (fun x => k))
  (at level 10, x name, c at level 100, k at level 200) : m_scope.
Notation "c ;; k" := (bind c (fun _ => k))
  (at level 100, k at level 200, right associativity) : m_scope.

Definition emit (e : Event) : M unit := fun g => (tt, g, [e]).
Definition get_loaded_modules : M (list LoadedModule) :=
  fun g => (loaded_modules g, g, []).
Definition set_loaded_modules (l : list LoadedModule) : M unit :=
  fun _ => (tt, mkGlobals l, []).

(** What a run returns, the globals it leaves and the events it performs. *)
Definition result {A : Type} (r : A * Globals * list Event) : A := fst (fst r).
Definition globals {A : Type} (r : A * Globals * list Event) : Globals :=
  snd (fst r).
Definition events {A : Type} (r : A * Globals * list Event) : list Event :=
  snd r.

(** Running a list of actions in order: the C [for] loops over a list. *)
Fixpoint for_each {A : Type} (f : A -> M unit) (l : list A) : M unit :=
  match l with
  | [] => ret tt
  | x :: rest => (f x;; for_each f rest)%m
  end.

(** ** GLib and C library pieces *)

(** [g_module_symbol (module, symbol_name, & p)]: [Some] when the module
    exports the symbol, [None] when the call returns FALSE. *)
Fixpoint lookup_symbol (syms : list (string * Plugin)) (symbol_name : string)
  : option Plugin :=
  match syms with
  | [] => None
  | (n, p) :: rest =>
      if String.eqb n symbol_name then Some p
      else lookup_symbol rest symbol_name
  end.

Definition g_module_symbol (m : GModule) (symbol_name : string)
  : option Plugin :=
  lookup_symbol (symbols m) symbol_name.

Definition g_module_close (m : GModule) : M unit := emit (EvModuleClose m).

Definition pthread_mutex_lock : M unit := emit EvMutexLock.
Definition pthread_mutex_unlock : M unit := emit EvMutexUnlock.

(** What [g_stat] fills in, as far as the scan reads it. *)
Record GStatBuf : Type := mkGStatBuf {
  st_mode : Z;
  st_mtime : Z
}.

(** [S_ISREG] of sys/stat.h: [(m & S_IFMT) == S_IFREG]. *)
Definition S_IFMT : Z := 61440.   (* 0170000 *)
Definition S_IFREG : Z := 32768.  (* 0100000 *)
Definition S_IFDIR : Z := 16384.  (* 0040000 *)
Definition S_ISREG (m : Z) : bool := Z.land m S_IFMT =? S_IFREG.

(** Modelled from the spec: [str_has_suffix_nocase] is defined in
    audstrings.c, which is not part of the sources at hand.  A name matches
    when it ends with the suffix, letters of ASCII compared without regard
    to case. *)
Definition ascii_tolower (c : ascii) : ascii :=
  let n := nat_of_ascii c in
  if ((65 <=? n) && (n <=? 90))%nat then ascii_of_nat (n + 32) else c.

Fixpoint str_tolower (s : string) : string :=
  match s with
  | EmptyString => EmptyString
  | String c rest => String (ascii_tolower c) (str_tolower rest)
  end.

Definition str_has_suffix_nocase (str suffix : string) : bool :=
  let len1 := String.length str in
  let len2 := String.length suffix in
  if (len1 <? len2)%nat then false
  else String.eqb (str_tolower (substring (len1 - len2) len2 str))
                  (str_tolower suffix).

(** The registry (plugin-registry.c) is reached through four calls; each is
    an action on the outside world. *)
Definition plugin_registry_load : M unit := emit EvRegistryLoad.
Definition plugin_registry_prune : M unit := emit EvRegistryPrune.
Definition plugin_registry_save : M unit := emit EvRegistrySave.
Definition plugin_register (path : string) (mtime : Z) : M unit :=
  emit (EvRegister path mtime).

Inductive AudPath : Type := AUD_PATH_PLUGIN_DIR.

(** [static const char * plugin_dir_list[]] *)
Definition plugin_dir_list : list string :=
  [ "Transport"; "Container"; "Input"; "Output"; "Effect"; "General";
    "Visualization" ].

(** ** The program *)

Section PluginLoad.

(** Constants of plugin.h. *)
Variables (_AUD_PLUGIN_MAGIC _AUD_PLUGIN_VERSION_MIN _AUD_PLUGIN_VERSION : Z).

(** [#ifndef VALGRIND_FRIENDLY]: true when the build defines the macro. *)
Variable VALGRIND_FRIENDLY : bool.

(** The platform: what [g_module_open] finds under a file name ([None]
    when it returns NULL), what [g_stat] reports for a path ([None] when it
    returns a negative value), whether [g_module_supported ()] holds. *)
Variable g_module_open : string -> option GModule.
Variable g_stat : string -> option GStatBuf.
Variable g_module_supported : bool.

(** Helpers of libaudcore that are not part of the sources at hand. *)
Variable PLUGIN_SUFFIX : string.
Variable aud_get_path : AudPath -> string.
Variable filename_build : string -> string -> string.

(** The file system: the entries the walk of a directory visits, each as
    (full path, base name); [None] when the directory cannot be read. *)
Variable dir_entries : string -> option (list (string * string)).

(** Modelled from the spec: [dir_foreach] is not part of the sources at
    hand.  It walks the entries of the directory and runs the callback on
    each in turn; a TRUE return of the callback ends the walk.  It returns
    whether the directory was read. *)
Fixpoint dir_foreach_loop (func : string -> string -> M bool)
    (entries : list (string * string)) : M unit :=
  match entries with
  | [] => ret tt
  | (full, name) :: rest =>
      (do stop <- func full name;
       if (stop : bool) then ret tt else dir_foreach_loop func rest)%m
  end.

Definition dir_foreach (path : string) (func : string -> string -> M bool)
  : M bool :=
  (emit (EvDirForeach path);;
   match dir_entries path with
   | None => ret false
   | Some entries => dir_foreach_loop func entries;; ret true
   end)%m.

(** The call of [g_module_open]; a module that was opened is logged. *)
Definition open_module (filename : string) : M (option GModule) :=
  match g_module_open filename with
  | Some m => (emit (EvModuleOpen m);; ret (Some m))%m
  | None => ret None
  end.

(** [Plugin * plugin_load (const char * filename)]; [None] is NULL. *)
Definition plugin_load (filename : string) : M (option Plugin) :=
  (do module <- open_module filename;
   match module with
   | None =>
       emit (EvStderr (OpenFailed filename));;
       ret None
   | Some module =>
       match g_module_symbol module "_aud_plugin_self" with
       | None =>
           emit (EvStderr (NotAPlugin filename));;
           g_module_close module;;
           ret None
       | Some header =>
           if negb (magic header =? _AUD_PLUGIN_MAGIC) then
             emit (EvStderr (NotAPlugin filename));;
             g_module_close module;;
             ret None
           else if (version header <? _AUD_PLUGIN_VERSION_MIN)
                   || (version header >? _AUD_PLUGIN_VERSION) then
             emit (EvStderr (IncompatibleVersion filename));;
             g_module_close module;;
             ret None
           else
             do init_failed <-
               (if PluginType_eqb (type header) PLUGIN_TYPE_TRANSPORT
                   || PluginType_eqb (type header) PLUGIN_TYPE_PLAYLIST
                   || PluginType_eqb (type header) PLUGIN_TYPE_INPUT
                   || PluginType_eqb (type header) PLUGIN_TYPE_EFFECT
                then
                  match init header with
                  | Some r => emit (EvInit header);; ret (negb r)
                  | None => ret false
                  end
                else ret false);
             if (init_failed : bool) then
               emit (EvStderr (InitFailed filename));;
               g_module_close module;;
               ret None
             else
               pthread_mutex_lock;;
               do l <- get_loaded_modules;
               set_loaded_modules (mkLoadedModule header module :: l);;
               pthread_mutex_unlock;;
               ret (Some header)
       end
   end)%m.

(** [static void plugin2_unload (LoadedModule * loaded)] *)
Definition plugin2_unload (loaded : LoadedModule) : M unit :=
  (let header := header loaded in
   match type header with
   | PLUGIN_TYPE_TRANSPORT
   | PLUGIN_TYPE_PLAYLIST
   | PLUGIN_TYPE_INPUT
   | PLUGIN_TYPE_EFFECT =>
       match cleanup header with
       | Some _ => emit (EvCleanup header)
       | None => ret tt
       end
   | _ => ret tt
   end;;
   pthread_mutex_lock;;
   (if VALGRIND_FRIENDLY then ret tt else g_module_close (module loaded));;
   pthread_mutex_unlock)%m.

(** [static bool_t scan_plugin_func (path, basename, data)] *)
Definition scan_plugin_func (path basename : string) : M bool :=
  (if negb (str_has_suffix_nocase basename PLUGIN_SUFFIX) then ret false
   else
     match g_stat path with
     | None =>
         emit (EvStderr (StatFailed path));;
         ret false
     | Some st =>
         (if S_ISREG (st_mode st) then plugin_register path (st_mtime st)
          else ret tt);;
         ret false
     end)%m.

(** [static void scan_plugins (const char * path)] *)
Definition scan_plugins (path : string) : M unit :=
  (dir_foreach path scan_plugin_func;; ret tt)%m.

(** [void plugin_system_init (void)]; [None] when the assertion fails and
    the process is aborted. *)
Definition plugin_system_init : M (option unit) :=
  (if negb g_module_supported then ret None
   else
     plugin_registry_load;;
     let path := aud_get_path AUD_PATH_PLUGIN_DIR in
     for_each (fun d => scan_plugins (filename_build path d))
              plugin_dir_list;;
     plugin_registry_prune;;
     ret (Some tt))%m.

(** [void plugin_system_cleanup (void)] *)
Definition plugin_system_cleanup : M unit :=
  (plugin_registry_save;;
   do l <- get_loaded_modules;
   for_each plugin2_unload l;;
   set_loaded_modules [])%m.

End PluginLoad.

(** ** Reading the event log *)

Definition closes (l : list Event) : list GModule :=
  flat_map (fun e => match e with EvModuleClose m => [m] | _ => [] end) l.

Definition opens (l : list Event) : list GModule :=
  flat_map (fun e => match e with EvModuleOpen m => [m] | _ => [] end) l.

Definition init_calls (l : list Event) : list Plugin :=
  flat_map (fun e => match e with EvInit h => [h] | _ => [] end) l.

Definition cleanup_calls (l : list Event) : list Plugin :=
  flat_map (fun e => match e with EvCleanup h => [h] | _ => [] end) l.

Definition stderr_lines (l : list Event) : list ErrorLine :=
  flat_map (fun e => match e with EvStderr x => [x] | _ => [] end) l.

Definition registrations (l : list Event) : list (string * Z) :=
  flat_map (fun e => match e with EvRegister p t => [(p, t)] | _ => [] end) l.

Definition dirs_walked (l : list Event) : list string :=
  flat_map (fun e => match e with EvDirForeach p => [p] | _ => [] end) l.

(** [a] happens somewhere before [b] in the log. *)
Definition precedes (a b : Event) (l : list Event) : Prop :=
  exists l1 l2 l3, l = l1 ++ a :: l2 ++ b :: l3.

(** ** The words of the specification *)

(** The kinds with a load-time side effect: Transport, Playlist, Input,
    Effect. *)
Definition lifecycle_kind (t : PluginType) : bool :=
  match t with
  | PLUGIN_TYPE_TRANSPORT | PLUGIN_TYPE_PLAYLIST
  | PLUGIN_TYPE_INPUT | PLUGIN_TYPE_EFFECT => true
  | _ => false
  end.

(** A loaded plugin of a kind that has a cleanup hook, and has one. *)
Definition wants_cleanup (h : Plugin) : bool :=
  lifecycle_kind (type h) &&
  match cleanup h with Some _ => true | None => false end.

(** The path a loaded entry was loaded from: the file of its module. *)
Definition loaded_path (lm : LoadedModule) : string := file_name (module lm).

(** What unloading one entry does to the outside world. *)
Definition unload_events (valgrind_friendly : bool) (lm : LoadedModule)
  : list Event :=
  (if wants_cleanup (header lm) then [EvCleanup (header lm)] else [])
  ++ [EvMutexLock]
  ++ (if valgrind_friendly then [] else [EvModuleClose (module lm)])
  ++ [EvMutexUnlock].

(** A candidate of the scan: the name ends with the plugin suffix, case
    apart, and the path, symbolic links followed, is a regular file. *)
Definition is_candidate (g_stat : string -> option GStatBuf)
    (suffix : string) (entry : string * string) : bool :=
  str_has_suffix_nocase (snd entry) suffix &&
  match g_stat (fst entry) with
  | Some st => S_ISREG (st_mode st)
  | None => false
  end.

(** The modification time [g_stat] reports for a path. *)
Definition mtime_of (g_stat : string -> option GStatBuf) (path : string) : Z :=
  match g_stat path with
  | Some st => st_mtime st
  | None => 0
  end.

(** A file with the plugin suffix whose stat fails. *)
Definition stat_fails (g_stat : string -> option GStatBuf)
    (suffix : string) (entry : string * string) : bool :=
  str_has_suffix_nocase (snd entry) suffix &&
  match g_stat (fst entry) with Some _ => false | None => true end.

(** [load] fails with the error [e]: it returns NULL and [e] is the line it
    wrote to stderr. *)
Definition fails_with (r : option Plugin * Globals * list Event)
    (e : ErrorLine) : Prop :=
  result r = None /\ stderr_lines (events r) = [e].

(** The operations a caller can run on the loaded-set. *)
Inductive Op : Type :=
  | OpLoad (filename : string)
  | OpUnloadAll.

Section Statements.

Variables (MAGIC VERSION_MIN VERSION : Z).
Variable VALGRIND_FRIENDLY : bool.
Variable g_module_open : string -> option GModule.
Variable g_stat : string -> option GStatBuf.
Variable PLUGIN_SUFFIX : string.

(** Past validation: the magic and the version of the descriptor fit. *)
Definition valid_descriptor (h : Plugin) : Prop :=
  magic h = MAGIC /\ VERSION_MIN <= version h <= VERSION.

(** The seven branches of [plugin_load]. *)
Inductive LoadCase (filename : string) : Prop :=
  | CaseOpenFailed :
      g_module_open filename = None -> LoadCase filename
  | CaseNoSymbol m :
      g_module_open filename = Some m ->
      g_module_symbol m "_aud_plugin_self" = None -> LoadCase filename
  | CaseBadMagic m h :
      g_module_open filename = Some m ->
      g_module_symbol m "_aud_plugin_self" = Some h ->
      magic h <> MAGIC -> LoadCase filename
  | CaseBadVersion m h :
      g_module_open filename = Some m ->
      g_module_symbol m "_aud_plugin_self" = Some h ->
      magic h = MAGIC ->
      version h < VERSION_MIN \/ version h > VERSION -> LoadCase filename
  | CaseInitFailed m h :
      g_module_open filename = Some m ->
      g_module_symbol m "_aud_plugin_self" = Some h ->
      valid_descriptor h ->
      lifecycle_kind (type h) = true ->
      init h = Some false -> LoadCase filename
  | CaseInitOk m h :
      g_module_open filename = Some m ->
      g_module_symbol m "_aud_plugin_self" = Some h ->
      valid_descriptor h ->
      lifecycle_kind (type h) = true ->
      init h = Some true -> LoadCase filename
  | CaseNoInit m h :
      g_module_open filename = Some m ->
      g_module_symbol m "_aud_plugin_self" = Some h ->
      valid_descriptor h ->
      lifecycle_kind (type h) = false \/ init h = None -> LoadCase filename.

(** Running a sequence of operations. *)
Definition run_op (op : Op) : M unit :=
  match op with
  | OpLoad filename =>
      (plugin_load MAGIC VERSION_MIN VERSION g_module_open filename;;
       ret tt)%m
  | OpUnloadAll => plugin_system_cleanup VALGRIND_FRIENDLY
  end.

Definition run_ops (ops : list Op) : M unit := for_each run_op ops.

(** The entry a load of the file adds to the loaded-set: none when the load
    fails. *)
Definition loaded_entry (filename : string) : list LoadedModule :=
  loaded_modules
    (globals (plugin_load MAGIC VERSION_MIN VERSION g_module_open filename
                (mkGlobals []))).

(** Whether loading a file succeeds (the loaded-set plays no part in it). *)
Definition loads_ok (filename : string) : bool :=
  match result (plugin_load MAGIC VERSION_MIN VERSION g_module_open filename
                  (mkGlobals [])) with
  | Some _ => true
  | None => false
  end.

(** The paths loaded with success since the last unloadAll, newest first,
    on top of the paths [acc] held before. *)
Fixpoint paths_after (ops : list Op) (acc : list string) : list string :=
  match ops with
  | [] => acc
  | OpLoad filename :: rest =>
      paths_after rest (if loads_ok filename then filename :: acc else acc)
  | OpUnloadAll :: rest => paths_after rest []
  end.

(** What the scan does on one directory entry. *)
Definition entry_log (entry : string * string) : list Event :=
  events (scan_plugin_func g_stat PLUGIN_SUFFIX (fst entry) (snd entry)
            (mkGlobals [])).

(** The entries the walk of a directory visits; none when it cannot be
    read. *)
Definition listing (dir_entries : string -> option (list (string * string)))
    (path : string) : list (string * string) :=
  match dir_entries path with
  | Some entries => entries
  | None => []
  end.

End Statements.

(** ** A concrete platform, for the examples *)

Module Demo.

Definition MAGIC : Z := -1901294110.
Definition VERSION_MIN : Z := 1.
Definition VERSION : Z := 10.

Definition a_plugin : Plugin :=
  mkPlugin MAGIC 5 PLUGIN_TYPE_INPUT "a" (Some true) (Some tt).
Definition b_plugin : Plugin :=
  mkPlugin 0 99 PLUGIN_TYPE_INPUT "b" (Some true) (Some tt).
Definition c_plugin : Plugin :=
  mkPlugin MAGIC 99 PLUGIN_TYPE_OUTPUT "c" None None.
Definition d_plugin : Plugin :=
  mkPlugin MAGIC 5 PLUGIN_TYPE_EFFECT "d" (Some false) (Some tt).
Definition e_plugin : Plugin :=
  mkPlugin MAGIC 7 PLUGIN_TYPE_OUTPUT "e" (Some false) (Some tt).

Definition plugin_file (path : string) (p : Plugin) : GModule :=
  mkGModule path [("_aud_plugin_self", p)].

Definition a_so : GModule := plugin_file "Input/a.so" a_plugin.
Definition b_so : GModule := plugin_file "Input/b.so" b_plugin.
Definition c_so : GModule := plugin_file "Output/c.so" c_plugin.
Definition d_so : GModule := plugin_file "Effect/d.so" d_plugin.
Definition e_so : GModule := plugin_file "Output/e.so" e_plugin.
Definition libz_so : GModule := mkGModule "Input/libz.so" [].

Definition modules : list GModule :=
  [a_so; b_so; c_so; d_so; e_so; libz_so].

(** [g_module_open]: the module of that file name, if there is one. *)
Definition g_module_open (filename : string) : option GModule :=
  find (fun m => String.eqb (file_name m) filename) modules.

Definition load : string -> M (option Plugin) :=
  plugin_load MAGIC VERSION_MIN VERSION g_module_open.

(** A directory: two plugins (one with an upper-case suffix), a text file,
    a directory named like a plugin, and a plugin whose stat fails. *)
Definition input_dir : list (string * string) :=
  [ ("Input/a.so", "a.so"); ("Input/README", "README");
    ("Input/gone.so", "gone.so"); ("Input/old.so", "old.so");
    ("Input/B.SO", "B.SO") ].

Definition dir_entries (path : string) : option (list (string * string)) :=
  if String.eqb path "Input" then Some input_dir
  else if String.eqb path "Output" then Some [("Output/c.so", "c.so")]
  else None.

Definition g_stat (path : string) : option GStatBuf :=
  if String.eqb path "Input/a.so" then Some (mkGStatBuf 33261 1400000000)
  else if String.eqb path "Input/README" then Some (mkGStatBuf 33188 1400000001)
  else if String.eqb path "Input/old.so" then Some (mkGStatBuf 16877 1400000002)
  else if String.eqb path "Input/B.SO" then Some (mkGStatBuf 33261 1400000003)
  else if String.eqb path "Output/c.so" then Some (mkGStatBuf 33261 1400000004)
  else None.

Definition filename_build (dir name : string) : string :=
  (dir ++ "/" ++ name)%string.

Definition aud_get_path (p : AudPath) : string := "/usr/lib/audacious".

(** Loaded-set states. *)
Definition one_loaded : Globals :=
  mkGlobals [mkLoadedModule a_plugin a_so].
Definition two_loaded : Globals :=
  mkGlobals [mkLoadedModule e_plugin e_so; mkLoadedModule a_plugin a_so].

End Demo.

(** ** A plugin directory on disk, for the examples of start-up *)

Module DemoTree.

Definition base : string := "/usr/lib/audacious".

(** Input holds a plugin, a note and a plugin whose stat fails; Output
    holds a plugin and a directory named like one; the other five
    directories do not exist. *)
Definition dir_entries (path : string) : option (list (string * string)) :=
  if String.eqb path "/usr/lib/audacious/Input" then
    Some [ ("/usr/lib/audacious/Input/a.so", "a.so");
           ("/usr/lib/audacious/Input/NOTES", "NOTES");
           ("/usr/lib/audacious/Input/gone.so", "gone.so") ]
  else if String.eqb path "/usr/lib/audacious/Output" then
    Some [ ("/usr/lib/audacious/Output/old.so", "old.so");
           ("/usr/lib/audacious/Output/C.SO", "C.SO") ]
  else None.

Definition g_stat (path : string) : option GStatBuf :=
  if String.eqb path "/usr/lib/audacious/Input/a.so"
  then Some (mkGStatBuf 33261 1400000000)
  else if String.eqb path "/usr/lib/audacious/Input/NOTES"
  then Some (mkGStatBuf 33188 1400000001)
  else if String.eqb path "/usr/lib/audacious/Output/old.so"
  then Some (mkGStatBuf 16877 1400000002)
  else if String.eqb path "/usr/lib/audacious/Output/C.SO"
  then Some (mkGStatBuf 33261 1400000003)
  else None.

Definition startup : M (option unit) :=
  plugin_system_init g_stat true ".so" (fun _ => base) Demo.filename_build
    dir_entries.

End DemoTree.

(** ** Further vocabulary: invariants of the loaded-set and of the log *)

Section Invariants.

Variables (MAGIC VERSION_MIN VERSION : Z).
Variable g_module_open : string -> option GModule.

(** An entry as a successful [plugin_load] makes it: the module is one
    [g_module_open] returns, the descriptor is the symbol the module
    exports, it passed validation, and its init hook, where one was run, did
    not refuse. *)
Definition entry_validated (lm : LoadedModule) : Prop :=
  (exists filename, g_module_open filename = Some (module lm)) /\
  g_module_symbol (module lm) "_aud_plugin_self" = Some (header lm) /\
  valid_descriptor MAGIC VERSION_MIN VERSION (header lm) /\
  (lifecycle_kind (type (header lm)) = true -> init (header lm) <> Some false).

End Invariants.

(** The mutex along a log, from the state [held]: [None] when the log takes
    the mutex twice, releases it when it is free, or does anything but
    close a module while it holds it; else the state at the end. *)
Fixpoint mutex_discipline (held : bool) (l : list Event) : option bool :=
  match l with
  | [] => Some held
  | e :: rest =>
      if held then
        match e with
        | EvModuleClose _ => mutex_discipline true rest
        | EvMutexUnlock => mutex_discipline false rest
        | _ => None
        end
      else
        match e with
        | EvMutexLock => mutex_discipline true rest
        | EvMutexUnlock => None
        | _ => mutex_discipline false rest
        end
  end.

(** The actions of the scan: calls of the registry, walks of directories,
    stat failures written to stderr. *)
Definition scan_event (e : Event) : bool :=
  match e with
  | EvRegistryLoad | EvRegistryPrune | EvDirForeach _ | EvRegister _ _
  | EvStderr (StatFailed _) => true
  | _ => false
  end.

(** How often a module is opened, closed, held by the loaded-set. *)
Definition times_opened (m : GModule) (l : list Event) : nat :=
  count_occ GModule_eq_dec (opens l) m.
Definition times_closed (m : GModule) (l : list Event) : nat :=
  count_occ GModule_eq_dec (closes l) m.
Definition times_held (m : GModule) (g : Globals) : nat :=
  count_occ GModule_eq_dec (map module (loaded_modules g)) m.

(** The modules that are open, along a log.  [remove_one] takes one
    occurrence of a module out of the list, if there is one. *)
Fixpoint remove_one (m : GModule) (open : list GModule)
  : option (list GModule) :=
  match open with
  | [] => None
  | x :: rest =>
      if GModule_eq_dec x m then Some rest
      else match remove_one m rest with
           | Some rest' => Some (x :: rest')
           | None => None
           end
  end.

(** The module exports the descriptor under the well-known symbol. *)
Definition exports (h : Plugin) (m : GModule) : bool :=
  match g_module_symbol m "_aud_plugin_self" with
  | Some h' => if Plugin_eq_dec h' h then true else false
  | None => false
  end.

(** Follows the log from the list [open] of the modules that are open, one
    occurrence for each open not yet matched by a close.  [None] when the
    log closes a module that is not open, or calls the init or cleanup hook
    of a descriptor that no open module exports; else the modules open at
    the end. *)
Fixpoint modules_used_while_open (open : list GModule) (l : list Event)
  : option (list GModule) :=
  match l with
  | [] => Some open
  | e :: rest =>
      match e with
      | EvModuleOpen m => modules_used_while_open (m :: open) rest
      | EvModuleClose m =>
          match remove_one m open with
          | Some open' => modules_used_while_open open' rest
          | None => None
          end
      | EvInit h | EvCleanup h =>
          if existsb (exports h) open
          then modules_used_while_open open rest
          else None
      | _ => modules_used_while_open open rest
      end
  end.

(** * Properties of [plugin_load] *)

Section LoadProperties.

Variables (MAGIC VERSION_MIN VERSION : Z).
Variable g_module_open : string -> option GModule.

Local Abbreviation load :=
  (plugin_load MAGIC VERSION_MIN VERSION g_module_open).
Local Abbreviation valid := (valid_descriptor MAGIC VERSION_MIN VERSION).
Local Abbreviation self := "_aud_plugin_self"%string.

(** The test of [plugin_load] on the kind is the test on the four kinds. *)
Lemma lifecycle_test (t : PluginType) :
  PluginType_eqb t PLUGIN_TYPE_TRANSPORT
  || PluginType_eqb t PLUGIN_TYPE_PLAYLIST
  || PluginType_eqb t PLUGIN_TYPE_INPUT
  || PluginType_eqb t PLUGIN_TYPE_EFFECT = lifecycle_kind t.
Proof. destruct t; reflexivity. Qed.

Lemma valid_descriptor_tests h :
  valid h ->
  negb (magic h =? MAGIC) = false /\
  (version h <? VERSION_MIN) || (version h >? VERSION) = false.
Proof.
  intros [Hm [Hlo Hhi]]. split.
  - apply Z.eqb_eq in Hm. now rewrite Hm.
  - apply orb_false_iff. split.
    + apply Z.ltb_ge. lia.
    + rewrite Z.gtb_ltb. apply Z.ltb_ge. lia.
Qed.

(** ** The branches of [plugin_load], one equation each *)

Lemma load_open_failed filename g :
  g_module_open filename = None ->
  load filename g = (None, g, [EvStderr (OpenFailed filename)]).
Proof.
  intros Ho. unfold plugin_load, open_module, bind. rewrite Ho. reflexivity.
Qed.

Lemma load_no_symbol filename g m :
  g_module_open filename = Some m ->
  g_module_symbol m self = None ->
  load filename g =
  (None, g, [EvModuleOpen m; EvStderr (NotAPlugin filename); EvModuleClose m]).
Proof.
  intros Ho Hs. unfold plugin_load, open_module, bind. rewrite Ho. simpl.
  rewrite Hs. reflexivity.
Qed.

Lemma load_bad_magic filename g m h :
  g_module_open filename = Some m ->
  g_module_symbol m self = Some h ->
  magic h <> MAGIC ->
  load filename g =
  (None, g, [EvModuleOpen m; EvStderr (NotAPlugin filename); EvModuleClose m]).
Proof.
  intros Ho Hs Hm. unfold plugin_load, open_module, bind. rewrite Ho. simpl.
  rewrite Hs. apply Z.eqb_neq in Hm. rewrite Hm. reflexivity.
Qed.

Lemma load_bad_version filename g m h :
  g_module_open filename = Some m ->
  g_module_symbol m self = Some h ->
  magic h = MAGIC ->
  version h < VERSION_MIN \/ version h > VERSION ->
  load filename g =
  (None, g,
   [EvModuleOpen m; EvStderr (IncompatibleVersion filename); EvModuleClose m]).
Proof.
  intros Ho Hs Hm Hv. unfold plugin_load, open_module, bind. rewrite Ho. simpl.
  rewrite Hs. apply Z.eqb_eq in Hm. rewrite Hm. simpl.
  assert (Hb : (version h <? VERSION_MIN) || (version h >? VERSION) = true).
  { apply orb_true_iff. destruct Hv as [Hv | Hv]; [left | right].
    - now apply Z.ltb_lt.
    - apply Z.gtb_lt. lia. }
  rewrite Hb. reflexivity.
Qed.

Lemma load_init_failed filename g m h :
  g_module_open filename = Some m ->
  g_module_symbol m self = Some h ->
  valid h ->
  lifecycle_kind (type h) = true ->
  init h = Some false ->
  load filename g =
  (None, g,
   [EvModuleOpen m; EvInit h; EvStderr (InitFailed filename); EvModuleClose m]).
Proof.
  intros Ho Hs Hv Hk Hi. apply valid_descriptor_tests in Hv as [Hm Hb].
  unfold plugin_load, open_module, bind. rewrite Ho. simpl.
  rewrite Hs, Hm, Hb, lifecycle_test, Hk, Hi. reflexivity.
Qed.

Lemma load_init_ok filename g m h :
  g_module_open filename = Some m ->
  g_module_symbol m self = Some h ->
  valid h ->
  lifecycle_kind (type h) = true ->
  init h = Some true ->
  load filename g =
  (Some h, mkGlobals (mkLoadedModule h m :: loaded_modules g),
   [EvModuleOpen m; EvInit h; EvMutexLock; EvMutexUnlock]).
Proof.
  intros Ho Hs Hv Hk Hi. apply valid_descriptor_tests in Hv as [Hm Hb].
  unfold plugin_load, open_module, bind. rewrite Ho. simpl.
  rewrite Hs, Hm, Hb, lifecycle_test, Hk, Hi. reflexivity.
Qed.

Lemma load_no_init filename g m h :
  g_module_open filename = Some m ->
  g_module_symbol m self = Some h ->
  valid h ->
  lifecycle_kind (type h) = false \/ init h = None ->
  load filename g =
  (Some h, mkGlobals (mkLoadedModule h m :: loaded_modules g),
   [EvModuleOpen m; EvMutexLock; EvMutexUnlock]).
Proof.
  intros Ho Hs Hv Hk. apply valid_descriptor_tests in Hv as [Hm Hb].
  unfold plugin_load, open_module, bind. rewrite Ho. simpl.
  rewrite Hs, Hm, Hb, lifecycle_test.
  destruct Hk as [Hk | Hi].
  - rewrite Hk. reflexivity.
  - rewrite Hi. destruct (lifecycle_kind (type h)); reflexivity.
Qed.

(** Every run of [plugin_load] takes one of the seven branches. *)
Lemma load_cases filename :
  LoadCase MAGIC VERSION_MIN VERSION g_module_open filename.
Proof.
  destruct (g_module_open filename) as [m |] eqn:Ho;
    [| now apply CaseOpenFailed].
  destruct (g_module_symbol m self) as [h |] eqn:Hs;
    [| now apply CaseNoSymbol with m].
  destruct (Z.eq_dec (magic h) MAGIC) as [Hm | Hm];
    [| now apply CaseBadMagic with m h].
  destruct (Z_lt_dec (version h) VERSION_MIN) as [Hlo | Hlo];
    [apply CaseBadVersion with m h; auto |].
  destruct (Z_gt_dec (version h) VERSION) as [Hhi | Hhi];
    [apply CaseBadVersion with m h; auto |].
  assert (Hv : valid h) by (split; [assumption | lia]).
  destruct (lifecycle_kind (type h)) eqn:Hk;
    [| apply CaseNoInit with m h; auto].
  destruct (init h) as [[|] |] eqn:Hi.
  - now apply CaseInitOk with m h.
  - now apply CaseInitFailed with m h.
  - apply CaseNoInit with m h; auto.
Qed.

(** Splits a goal about [load filename g] into the seven branches and
    rewrites the run with the branch's equation. *)
Ltac by_load_cases filename g :=
  let m := fresh "m" in
  let h := fresh "h" in
  let Ho := fresh "Ho" in
  let Hs := fresh "Hs" in
  let Hm := fresh "Hm" in
  let Hver := fresh "Hver" in
  let Hv := fresh "Hv" in
  let Hk := fresh "Hk" in
  let Hi := fresh "Hi" in
  destruct (load_cases filename)
    as [Ho | m Ho Hs | m h Ho Hs Hm | m h Ho Hs Hm Hver
        | m h Ho Hs Hv Hk Hi | m h Ho Hs Hv Hk Hi | m h Ho Hs Hv Hk];
  [ rewrite (load_open_failed filename g Ho)
  | rewrite (load_no_symbol filename g m Ho Hs)
  | rewrite (load_bad_magic filename g m h Ho Hs Hm)
  | rewrite (load_bad_version filename g m h Ho Hs Hm Hver)
  | rewrite (load_init_failed filename g m h Ho Hs Hv Hk Hi)
  | rewrite (load_init_ok filename g m h Ho Hs Hv Hk Hi)
  | rewrite (load_no_init filename g m h Ho Hs Hv Hk) ];
  unfold fails_with, result, globals, events; simpl.

(** Clears a goal of one branch: opens the hypotheses, identifies the
    module and the descriptor named twice, and closes by contradiction,
    arithmetic or by the facts of the branch. *)
Ltac same_module :=
  repeat match goal with
  | H1 : ?x = Some ?a, H2 : ?x = Some ?b |- _ =>
      assert (b = a) by congruence; subst b; clear H2
  end.

Ltac branch_facts :=
  intros; unfold valid_descriptor in *;
  repeat match goal with
  | H : _ /\ _ |- _ => destruct H
  | H : exists _, _ |- _ => destruct H
  | H : _ \/ _ |- _ => destruct H
  | H : In _ (_ :: _) |- _ => destruct H
  | H : In _ [] |- _ => destruct H
  end;
  same_module;
  try discriminate; try congruence; try lia;
  try solve [repeat split; first [congruence | eauto 10]].

(** C3: a module that exports the descriptor symbol with the right magic and
    a version between the minimum and the current one, and whose init hook
    (where the kind has one and it is present) returns true, is loaded:
    [plugin_load] returns its descriptor, puts the entry (descriptor, module)
    at the head of the loaded-set, writes no error and closes nothing. *)
Theorem plugin_load_valid_module filename g m h :
  g_module_open filename = Some m ->
  g_module_symbol m self = Some h ->
  magic h = MAGIC ->
  VERSION_MIN <= version h <= VERSION ->
  (forall b, lifecycle_kind (type h) = true -> init h = Some b -> b = true) ->
  let r := load filename g in
  result r = Some h /\
  loaded_modules (globals r) = mkLoadedModule h m :: loaded_modules g /\
  stderr_lines (events r) = [] /\
  closes (events r) = [].
Proof.
  intros Ho Hs Hm Hver Hinit r. subst r.
  assert (Hv : valid h) by (split; assumption).
  destruct (lifecycle_kind (type h)) eqn:Hk.
  - destruct (init h) as [b |] eqn:Hi.
    + rewrite (Hinit b eq_refl eq_refl) in Hi.
      rewrite (load_init_ok filename g m h Ho Hs Hv Hk Hi).
      repeat split.
    + rewrite (load_no_init filename g m h Ho Hs Hv (or_intror Hi)).
      repeat split.
  - rewrite (load_no_init filename g m h Ho Hs Hv (or_introl Hk)).
    repeat split.
Qed.

(** C4, as amended: [plugin_load] fails with NotAPlugin exactly when the
    module was opened and the descriptor symbol is absent or the magic of the
    descriptor mismatches; it fails with IncompatibleVersion exactly when the
    module was opened, the descriptor is present with the right magic, and
    its version lies outside the supported range.  A failure of either kind
    leaves the loaded-set as it was. *)
Theorem plugin_load_validation_errors filename g :
  let r := load filename g in
  (fails_with r (NotAPlugin filename) <->
   exists m, g_module_open filename = Some m /\
     (g_module_symbol m self = None \/
      exists h, g_module_symbol m self = Some h /\ magic h <> MAGIC)) /\
  (fails_with r (IncompatibleVersion filename) <->
   exists m h, g_module_open filename = Some m /\
     g_module_symbol m self = Some h /\ magic h = MAGIC /\
     (version h < VERSION_MIN \/ version h > VERSION)) /\
  (fails_with r (NotAPlugin filename) \/
   fails_with r (IncompatibleVersion filename) -> globals r = g).
Proof.
  intros r. subst r.
  by_load_cases filename g; (split; [split | split; [split |]]);
    branch_facts.
Qed.

(** C5: [plugin_load] calls the init hook only of a descriptor whose kind is
    Transport, Playlist, Input or Effect and whose hook is present, and then
    once; it does call it for every such descriptor that passed validation.
    When the call returns false, the load fails with InitFailed, the module
    it opened is closed, and the loaded-set is as it was. *)
Theorem plugin_load_init_hook filename g :
  let r := load filename g in
  (forall h, In h (init_calls (events r)) ->
     lifecycle_kind (type h) = true /\ init h <> None /\
     init_calls (events r) = [h]) /\
  (forall m h, g_module_open filename = Some m ->
     g_module_symbol m self = Some h -> valid h ->
     lifecycle_kind (type h) = true -> init h <> None ->
     init_calls (events r) = [h]) /\
  (forall h, In h (init_calls (events r)) -> init h = Some false ->
     fails_with r (InitFailed filename) /\
     (exists m, g_module_open filename = Some m /\
                opens (events r) = [m] /\ closes (events r) = [m]) /\
     globals r = g).
Proof.
  intros r. subst r.
  by_load_cases filename g; (split; [| split]); branch_facts.
Qed.

(** C10: when the module was opened and [plugin_load] returns NULL, the run
    took one of the three failure branches (descriptor missing or of the
    wrong magic, version out of range, init refused); the module it opened
    is closed once, as the last action of the call, nothing else is closed,
    and the loaded-set is as it was. *)
Theorem plugin_load_failure_closes_module filename g m :
  g_module_open filename = Some m ->
  result (load filename g) = None ->
  let r := load filename g in
  (fails_with r (NotAPlugin filename) \/
   fails_with r (IncompatibleVersion filename) \/
   fails_with r (InitFailed filename)) /\
  opens (events r) = [m] /\
  closes (events r) = [m] /\
  count_occ Event_eq_dec (events r) (EvModuleClose m) = 1%nat /\
  (exists before, events r = before ++ [EvModuleClose m]) /\
  globals r = g.
Proof.
  intros Hopen Hnull r. subst r. revert Hnull.
  assert (Hcount : forall l,
    count_occ Event_eq_dec (l ++ [EvModuleClose m]) (EvModuleClose m)
    = S (count_occ Event_eq_dec l (EvModuleClose m))).
  { intros l. rewrite count_occ_app.
    rewrite (count_occ_cons_eq Event_eq_dec [] (eq_refl (EvModuleClose m))).
    rewrite Nat.add_comm. reflexivity. }
  by_load_cases filename g; intros Hnull; try discriminate; try congruence;
    same_module.
  - repeat split; auto.
    + apply (Hcount [EvModuleOpen m; EvStderr (NotAPlugin filename)]).
    + now exists [EvModuleOpen m; EvStderr (NotAPlugin filename)].
  - repeat split; auto.
    + apply (Hcount [EvModuleOpen m; EvStderr (NotAPlugin filename)]).
    + now exists [EvModuleOpen m; EvStderr (NotAPlugin filename)].
  - repeat split; auto.
    + apply (Hcount [EvModuleOpen m; EvStderr (IncompatibleVersion filename)]).
    + now exists [EvModuleOpen m; EvStderr (IncompatibleVersion filename)].
  - repeat split; auto.
    + apply (Hcount [EvModuleOpen m; EvInit h;
                     EvStderr (InitFailed filename)]).
    + now exists [EvModuleOpen m; EvInit h; EvStderr (InitFailed filename)].
Qed.

(** ** What a load does to the loaded-set *)

Lemma load_globals filename g :
  loaded_modules (globals (load filename g)) =
  loaded_entry MAGIC VERSION_MIN VERSION g_module_open filename
  ++ loaded_modules g.
Proof.
  unfold loaded_entry.
  destruct (load_cases filename)
    as [Ho | m Ho Hs | m h Ho Hs Hm | m h Ho Hs Hm Hver
        | m h Ho Hs Hv Hk Hi | m h Ho Hs Hv Hk Hi | m h Ho Hs Hv Hk].
  - now rewrite !(load_open_failed filename _ Ho).
  - now rewrite !(load_no_symbol filename _ m Ho Hs).
  - now rewrite !(load_bad_magic filename _ m h Ho Hs Hm).
  - now rewrite !(load_bad_version filename _ m h Ho Hs Hm Hver).
  - now rewrite !(load_init_failed filename _ m h Ho Hs Hv Hk Hi).
  - now rewrite !(load_init_ok filename _ m h Ho Hs Hv Hk Hi).
  - now rewrite !(load_no_init filename _ m h Ho Hs Hv Hk).
Qed.

Lemma loaded_entry_path filename :
  (forall f m, g_module_open f = Some m -> file_name m = f) ->
  map loaded_path
    (loaded_entry MAGIC VERSION_MIN VERSION g_module_open filename) =
  if loads_ok MAGIC VERSION_MIN VERSION g_module_open filename
  then [filename] else [].
Proof.
  intros Hname. unfold loaded_entry, loads_ok.
  by_load_cases filename (mkGlobals []); try reflexivity;
    unfold loaded_path; simpl; now rewrite (Hname filename _ Ho).
Qed.

End LoadProperties.

(** * Properties of unloading and of shutdown *)

Section UnloadProperties.

Variable VALGRIND_FRIENDLY : bool.

Local Abbreviation unload := (plugin2_unload VALGRIND_FRIENDLY).
Local Abbreviation shutdown := (plugin_system_cleanup VALGRIND_FRIENDLY).
Local Abbreviation unload_log := (unload_events VALGRIND_FRIENDLY).

Lemma unload_run lm g : unload lm g = (tt, g, unload_log lm).
Proof.
  unfold plugin2_unload, unload_events, wants_cleanup, bind, g_module_close.
  destruct lm as [h m]; simpl.
  destruct (type h), (cleanup h), VALGRIND_FRIENDLY; reflexivity.
Qed.

Lemma for_each_unload_run l g :
  for_each unload l g = (tt, g, flat_map unload_log l).
Proof.
  induction l as [| lm l IH]; [reflexivity |].
  simpl. unfold bind. rewrite unload_run, IH. reflexivity.
Qed.

(** The whole run of [plugin_system_cleanup]. *)
Lemma shutdown_run g :
  shutdown g =
  (tt, mkGlobals [],
   EvRegistrySave :: flat_map unload_log (loaded_modules g)).
Proof.
  unfold plugin_system_cleanup, bind, plugin_registry_save, emit,
    get_loaded_modules, set_loaded_modules.
  rewrite for_each_unload_run. simpl. rewrite app_nil_r. reflexivity.
Qed.

Lemma closes_app l1 l2 : closes (l1 ++ l2) = closes l1 ++ closes l2.
Proof. apply flat_map_app. Qed.

Lemma closes_save l : closes (EvRegistrySave :: l) = closes l.
Proof. reflexivity. Qed.

Lemma cleanup_calls_save l :
  cleanup_calls (EvRegistrySave :: l) = cleanup_calls l.
Proof. reflexivity. Qed.

Lemma closes_unload_log l :
  closes (flat_map unload_log l) =
  if VALGRIND_FRIENDLY then [] else map module l.
Proof.
  induction l as [| lm l IH].
  - destruct VALGRIND_FRIENDLY; reflexivity.
  - simpl. unfold closes in *. rewrite flat_map_app, IH.
    unfold unload_events.
    destruct (wants_cleanup (header lm)), VALGRIND_FRIENDLY; reflexivity.
Qed.

Lemma cleanup_calls_unload_log l :
  cleanup_calls (flat_map unload_log l) =
  map header (filter (fun lm => wants_cleanup (header lm)) l).
Proof.
  induction l as [| lm l IH]; [reflexivity |].
  simpl. unfold cleanup_calls in *. rewrite flat_map_app, IH.
  unfold unload_events.
  destruct (wants_cleanup (header lm)), VALGRIND_FRIENDLY; reflexivity.
Qed.

Lemma save_not_in_unload_log l : ~ In EvRegistrySave (flat_map unload_log l).
Proof.
  rewrite in_flat_map. intros (lm & _ & H). unfold unload_events in H.
  apply in_app_or in H.
  destruct (wants_cleanup (header lm)), VALGRIND_FRIENDLY;
    simpl in H; intuition discriminate.
Qed.

(** In a log that starts with [a] and has no other [a], [a] comes before
    everything else and nothing comes before it. *)
Lemma head_precedes (a : Event) rest e :
  In e rest -> precedes a e (a :: rest).
Proof.
  intros H. apply in_split in H as (l2 & l3 & ->).
  exists [], l2, l3. reflexivity.
Qed.

Lemma nothing_precedes_head (a : Event) rest e :
  ~ In a rest -> ~ precedes e a (a :: rest).
Proof.
  intros Hn (l1 & l2 & l3 & H). apply Hn.
  destruct l1 as [| x l1]; simpl in H; injection H as _ H; subst rest.
  - apply in_or_app. right. left. reflexivity.
  - apply in_or_app. right. right. apply in_or_app. right. left. reflexivity.
Qed.

(** C1, as amended: [plugin_system_cleanup] saves the registry first; the
    cleanup hook of every loaded plugin that has one and the close of every
    loaded module come after the save, never before it. *)
Theorem plugin_system_cleanup_saves_first g :
  let r := shutdown g in
  exists rest,
    events r = EvRegistrySave :: rest /\
    ~ In EvRegistrySave rest /\
    rest = flat_map unload_log (loaded_modules g) /\
    (forall lm, In lm (loaded_modules g) ->
       (wants_cleanup (header lm) = true ->
        precedes EvRegistrySave (EvCleanup (header lm)) (events r)) /\
       (VALGRIND_FRIENDLY = false ->
        precedes EvRegistrySave (EvModuleClose (module lm)) (events r))) /\
    (forall e, ~ precedes e EvRegistrySave (events r)).
Proof.
  intros r. subst r. rewrite shutdown_run. unfold events; simpl.
  exists (flat_map unload_log (loaded_modules g)).
  split; [reflexivity |]. split; [apply save_not_in_unload_log |].
  split; [reflexivity |]. split.
  - intros lm Hin. split; intros H; apply head_precedes, in_flat_map;
      exists lm; (split; [assumption |]); unfold unload_events;
      rewrite H; [now left |].
    apply in_or_app. right. right. left. reflexivity.
  - intros e. apply nothing_precedes_head, save_not_in_unload_log.
Qed.

Lemma count_occ_map_filter_header (h : Plugin) l :
  count_occ Plugin_eq_dec
    (map header (filter (fun lm => wants_cleanup (header lm)) l)) h =
  if wants_cleanup h then count_occ Plugin_eq_dec (map header l) h else 0%nat.
Proof.
  induction l as [| lm l IH].
  - simpl. destruct (wants_cleanup h); reflexivity.
  - simpl. destruct (wants_cleanup (header lm)) eqn:Hw; simpl;
      destruct (Plugin_eq_dec (header lm) h) as [He | He]; rewrite IH.
    + rewrite <- He, Hw. reflexivity.
    + reflexivity.
    + rewrite <- He, Hw. reflexivity.
    + reflexivity.
Qed.

(** C6: whatever the loaded-set holds, [plugin_system_cleanup] calls the
    cleanup hook once for each entry whose kind is Transport, Playlist, Input
    or Effect and whose hook is present, in the order of the list, and for
    no other plugin; afterwards the loaded-set is empty. *)
Theorem plugin_system_cleanup_cleans_each_once g :
  let r := shutdown g in
  cleanup_calls (events r) =
    map header
      (filter (fun lm => wants_cleanup (header lm)) (loaded_modules g)) /\
  (forall h,
     count_occ Plugin_eq_dec (cleanup_calls (events r)) h =
     if lifecycle_kind (type h) &&
        match cleanup h with Some _ => true | None => false end
     then count_occ Plugin_eq_dec (map header (loaded_modules g)) h
     else 0%nat) /\
  loaded_modules (globals r) = [].
Proof.
  intros r. subst r. rewrite shutdown_run.
  unfold events, globals. cbn [fst snd loaded_modules].
  rewrite cleanup_calls_save, cleanup_calls_unload_log.
  split; [reflexivity |]. split; [| reflexivity].
  intros h. apply count_occ_map_filter_header.
Qed.

(** C7, as amended: a second [plugin_system_cleanup] right after a first one
    only saves the registry again: it closes no module and calls no cleanup
    hook, and the loaded-set stays empty.  Over the two shutdowns a module
    handle is closed once for each entry of the loaded-set that holds it
    (and not at all in a VALGRIND_FRIENDLY build), all of it during the
    first shutdown. *)
Theorem plugin_system_cleanup_twice g :
  let r1 := shutdown g in
  let r2 := shutdown (globals r1) in
  events r2 = [EvRegistrySave] /\
  closes (events r2) = [] /\
  cleanup_calls (events r2) = [] /\
  loaded_modules (globals r2) = [] /\
  closes (events r1 ++ events r2) =
    (if VALGRIND_FRIENDLY then [] else map module (loaded_modules g)) /\
  (forall m,
     (count_occ GModule_eq_dec (closes (events r1 ++ events r2)) m
      <= count_occ GModule_eq_dec (map module (loaded_modules g)) m)%nat).
Proof.
  intros r1 r2. subst r1 r2. rewrite !shutdown_run.
  unfold events, globals. cbn [fst snd loaded_modules flat_map].
  assert (Hc : closes
            ((EvRegistrySave :: flat_map unload_log (loaded_modules g))
             ++ [EvRegistrySave])
          = if VALGRIND_FRIENDLY then [] else map module (loaded_modules g)).
  { rewrite closes_app, closes_save, closes_unload_log.
    apply app_nil_r. }
  rewrite Hc. repeat split.
  intros m. destruct VALGRIND_FRIENDLY; simpl; lia.
Qed.

End UnloadProperties.

(** * Sequences of loads and shutdowns *)

Section SequenceProperties.

Variables (MAGIC VERSION_MIN VERSION : Z).
Variable VALGRIND_FRIENDLY : bool.
Variable g_module_open : string -> option GModule.

Local Abbreviation run :=
  (run_ops MAGIC VERSION_MIN VERSION VALGRIND_FRIENDLY g_module_open).
Local Abbreviation step :=
  (run_op MAGIC VERSION_MIN VERSION VALGRIND_FRIENDLY g_module_open).

Lemma for_each_cons_globals {A : Type} (f : A -> M unit) x l g :
  globals (for_each f (x :: l) g) = globals (for_each f l (globals (f x g))).
Proof.
  simpl. unfold bind, globals.
  destruct (f x g) as [[u g1] l1]. simpl.
  destruct (for_each f l g1) as [[u' g2] l2]. reflexivity.
Qed.

Lemma step_paths op g :
  (forall f m, g_module_open f = Some m -> file_name m = f) ->
  map loaded_path (loaded_modules (globals (step op g))) =
  match op with
  | OpLoad filename =>
      if loads_ok MAGIC VERSION_MIN VERSION g_module_open filename
      then filename :: map loaded_path (loaded_modules g)
      else map loaded_path (loaded_modules g)
  | OpUnloadAll => []
  end.
Proof.
  intros Hname. destruct op as [filename |]; simpl.
  - assert (Hg : globals
        ((plugin_load MAGIC VERSION_MIN VERSION g_module_open filename;;
          ret tt)%m g)
      = globals
          (plugin_load MAGIC VERSION_MIN VERSION g_module_open filename g)).
    { unfold bind, ret, globals.
      destruct (plugin_load _ _ _ _ filename g) as [[u g1] l1].
      reflexivity. }
    rewrite Hg, load_globals, map_app, (loaded_entry_path _ _ _ _ _ Hname).
    destruct (loads_ok _ _ _ _ filename); reflexivity.
  - rewrite shutdown_run. reflexivity.
Qed.

(** C2, as amended: the loaded-set holds one entry for each load that
    succeeded since the last unloadAll, newest first, whether or not the path
    was loaded before: after any sequence of loads and unloadAlls the paths
    of its entries are exactly the paths loaded with success since then.  A
    path loaded twice with success is held twice. *)
Theorem loaded_paths_after_ops ops g :
  (forall f m, g_module_open f = Some m -> file_name m = f) ->
  map loaded_path (loaded_modules (globals (run ops g))) =
  paths_after MAGIC VERSION_MIN VERSION g_module_open ops
    (map loaded_path (loaded_modules g)).
Proof.
  intros Hname. revert g.
  induction ops as [| op ops IH]; intros g; [reflexivity |].
  unfold run_ops in *. rewrite for_each_cons_globals, IH.
  rewrite (step_paths op g Hname).
  destruct op as [filename |]; reflexivity.
Qed.

End SequenceProperties.

(** * The suffix test *)

Section SuffixProperties.

Lemma str_tolower_length s :
  String.length (str_tolower s) = String.length s.
Proof. induction s; simpl; congruence. Qed.

Lemma append_length (a b : string) :
  String.length (a ++ b)%string = (String.length a + String.length b)%nat.
Proof. induction a; simpl; congruence. Qed.

Lemma substring_all s : substring 0 (String.length s) s = s.
Proof. induction s; simpl; congruence. Qed.

Lemma substring_skip (front back : string) :
  substring (String.length front) (String.length back) (front ++ back)%string
  = back.
Proof. induction front; simpl; [apply substring_all | assumption]. Qed.

Lemma string_split_at s :
  forall n, (n <= String.length s)%nat ->
  s = (substring 0 n s ++ substring n (String.length s - n) s)%string.
Proof.
  induction s as [| c s IH]; intros [| n] H; simpl in *.
  - reflexivity.
  - lia.
  - now rewrite substring_all.
  - f_equal. apply IH. lia.
Qed.

(** [str_has_suffix_nocase] holds exactly of the strings whose tail is the
    suffix, case apart. *)
Lemma str_has_suffix_nocase_spec (str suffix : string) :
  str_has_suffix_nocase str suffix = true <->
  exists front back : string,
    str = (front ++ back)%string /\ str_tolower back = str_tolower suffix.
Proof.
  unfold str_has_suffix_nocase. split.
  - destruct (String.length str <? String.length suffix)%nat eqn:Hlen;
      [discriminate |].
    apply Nat.ltb_ge in Hlen. intros H. apply String.eqb_eq in H.
    exists (substring 0 (String.length str - String.length suffix) str),
      (substring (String.length str - String.length suffix)
         (String.length suffix) str).
    split; [| assumption].
    rewrite (string_split_at str
               (String.length str - String.length suffix)) at 1 by lia.
    do 2 f_equal. lia.
  - intros (front & back & -> & H).
    assert (Hlen : String.length back = String.length suffix).
    { rewrite <- (str_tolower_length back), H. apply str_tolower_length. }
    rewrite append_length, <- Hlen.
    replace (String.length front + String.length back <? String.length back)%nat
      with false by (symmetry; apply Nat.ltb_ge; lia).
    replace (String.length front + String.length back - String.length back)%nat
      with (String.length front) by lia.
    rewrite substring_skip, H. apply String.eqb_refl.
Qed.

End SuffixProperties.

(** * Properties of the scan and of start-up *)

Section ScanProperties.

Variable g_stat : string -> option GStatBuf.
Variable g_module_supported : bool.
Variable PLUGIN_SUFFIX : string.
Variable aud_get_path : AudPath -> string.
Variable filename_build : string -> string -> string.
Variable dir_entries : string -> option (list (string * string)).

Local Abbreviation scan_func := (scan_plugin_func g_stat PLUGIN_SUFFIX).
Local Abbreviation scan := (scan_plugins g_stat PLUGIN_SUFFIX dir_entries).
Local Abbreviation log_of := (entry_log g_stat PLUGIN_SUFFIX).
Local Abbreviation candidate := (is_candidate g_stat PLUGIN_SUFFIX).
Local Abbreviation unreadable := (stat_fails g_stat PLUGIN_SUFFIX).
Local Abbreviation entries_of := (listing dir_entries).
Local Abbreviation startup :=
  (plugin_system_init g_stat g_module_supported PLUGIN_SUFFIX aud_get_path
     filename_build dir_entries).

(** The callback never asks the walk to stop and leaves the globals alone. *)
Lemma scan_plugin_func_run path basename g :
  scan_func path basename g = (false, g, log_of (path, basename)).
Proof.
  unfold entry_log, scan_plugin_func, bind, events. simpl.
  destruct (str_has_suffix_nocase basename PLUGIN_SUFFIX); [| reflexivity].
  simpl. destruct (g_stat path) as [st |]; [| reflexivity].
  unfold plugin_register, emit, ret.
  destruct (S_ISREG (st_mode st)); reflexivity.
Qed.

Lemma dir_foreach_loop_run entries g :
  dir_foreach_loop scan_func entries g = (tt, g, flat_map log_of entries).
Proof.
  induction entries as [| [full name] entries IH]; [reflexivity |].
  simpl. unfold bind. rewrite scan_plugin_func_run, IH. reflexivity.
Qed.

Lemma scan_plugins_run path g :
  scan path g =
  (tt, g, EvDirForeach path :: flat_map log_of (entries_of path)).
Proof.
  unfold scan_plugins, dir_foreach, listing, bind, emit.
  destruct (dir_entries path) as [entries |]; [| reflexivity].
  rewrite dir_foreach_loop_run. simpl. now rewrite !app_nil_r.
Qed.

(** The log of one entry, by the status of the entry. *)
Lemma entry_log_cases e :
  log_of e =
  if candidate e then [EvRegister (fst e) (mtime_of g_stat (fst e))]
  else if unreadable e then [EvStderr (StatFailed (fst e))]
  else [].
Proof.
  unfold entry_log, is_candidate, stat_fails, mtime_of, scan_plugin_func,
    bind, events, plugin_register, emit, ret.
  destruct e as [full name]; simpl.
  destruct (str_has_suffix_nocase name PLUGIN_SUFFIX); [| reflexivity].
  simpl. destruct (g_stat full) as [st |]; [| reflexivity].
  destruct (S_ISREG (st_mode st)); reflexivity.
Qed.

Lemma registrations_log entries :
  registrations (flat_map log_of entries) =
  map (fun e => (fst e, mtime_of g_stat (fst e))) (filter candidate entries).
Proof.
  induction entries as [| e entries IH]; [reflexivity |].
  simpl. unfold registrations in *. rewrite flat_map_app, IH.
  rewrite entry_log_cases.
  destruct (candidate e), (unreadable e); reflexivity.
Qed.

Lemma stderr_log entries :
  stderr_lines (flat_map log_of entries) =
  map (fun e => StatFailed (fst e)) (filter unreadable entries).
Proof.
  induction entries as [| e entries IH]; [reflexivity |].
  simpl. unfold stderr_lines in *. rewrite flat_map_app, IH.
  rewrite entry_log_cases.
  destruct (candidate e) eqn:Hc, (unreadable e) eqn:Hu; try reflexivity.
  exfalso. unfold is_candidate, stat_fails in Hc, Hu.
  destruct (str_has_suffix_nocase (snd e) PLUGIN_SUFFIX),
    (g_stat (fst e)); simpl in *; discriminate.
Qed.

Lemma dirs_walked_log entries : dirs_walked (flat_map log_of entries) = [].
Proof.
  induction entries as [| e entries IH]; [reflexivity |].
  simpl. unfold dirs_walked in *. rewrite flat_map_app, IH.
  rewrite entry_log_cases.
  destruct (candidate e), (unreadable e); reflexivity.
Qed.

Lemma log_has_no_registry_call entries e :
  In e (flat_map log_of entries) ->
  e <> EvRegistryLoad /\ e <> EvRegistryPrune /\ e <> EvRegistrySave.
Proof.
  rewrite in_flat_map. intros (x & _ & H). rewrite entry_log_cases in H.
  destruct (candidate x), (unreadable x); simpl in H;
    intuition (subst; discriminate).
Qed.

(** C8: the scan of a directory registers exactly the candidates among the
    entries the walk visits -- name ending with the plugin suffix, case
    apart, and a regular file once symbolic links are followed -- each with
    its path and modification time, in the order of the walk: with N
    candidates, N calls of [plugin_register], whatever the number of other
    entries.  A file with the suffix whose stat fails is reported on stderr
    and skipped; the entries before and after it are registered all the
    same. *)
Theorem scan_registers_candidates path g :
  let entries := entries_of path in
  let r := scan path g in
  registrations (events r) =
    map (fun e => (fst e, mtime_of g_stat (fst e))) (filter candidate entries)
  /\ List.length (registrations (events r))
     = List.length (filter candidate entries)
  /\ stderr_lines (events r) =
       map (fun e => StatFailed (fst e)) (filter unreadable entries)
  /\ (forall before e after,
        entries = before ++ e :: after -> unreadable e = true ->
        In (StatFailed (fst e)) (stderr_lines (events r)) /\
        registrations (events r) =
          map (fun e => (fst e, mtime_of g_stat (fst e)))
            (filter candidate before ++ filter candidate after))
  /\ globals r = g.
Proof.
  intros entries r. subst entries r. rewrite scan_plugins_run.
  unfold events, globals. cbn [fst snd].
  assert (Hr : registrations
            (EvDirForeach path :: flat_map log_of (entries_of path))
          = map (fun e => (fst e, mtime_of g_stat (fst e)))
              (filter candidate (entries_of path)))
    by apply (registrations_log (entries_of path)).
  assert (Hs : stderr_lines
            (EvDirForeach path :: flat_map log_of (entries_of path))
          = map (fun e => StatFailed (fst e))
              (filter unreadable (entries_of path)))
    by apply (stderr_log (entries_of path)).
  rewrite Hr, Hs. split; [reflexivity |].
  split; [apply length_map |]. split; [reflexivity |].
  split; [| reflexivity].
  intros before e after He Hu. rewrite He. split.
  - apply in_map_iff. exists e. split; [reflexivity |].
    apply filter_In. split; [| assumption].
    apply in_or_app. right. left. reflexivity.
  - rewrite filter_app. simpl.
    assert (Hc : candidate e = false).
    { unfold is_candidate, stat_fails in *.
      destruct (str_has_suffix_nocase (snd e) PLUGIN_SUFFIX),
        (g_stat (fst e)); simpl in *; congruence. }
    rewrite Hc. reflexivity.
Qed.

Lemma for_each_scan_run (dirs : list string) base g :
  for_each (fun d => scan (filename_build base d)) dirs g =
  (tt, g,
   flat_map (fun d => EvDirForeach (filename_build base d)
                      :: flat_map log_of (entries_of (filename_build base d)))
            dirs).
Proof.
  induction dirs as [| d dirs IH]; [reflexivity |].
  simpl. unfold bind. rewrite scan_plugins_run, IH. reflexivity.
Qed.

Local Abbreviation scan_log base :=
  (fun d => EvDirForeach (filename_build base d)
            :: flat_map log_of (entries_of (filename_build base d))).

Lemma startup_run g :
  g_module_supported = true ->
  startup g =
  (Some tt, g,
   EvRegistryLoad
   :: flat_map (scan_log (aud_get_path AUD_PATH_PLUGIN_DIR)) plugin_dir_list
      ++ [EvRegistryPrune]).
Proof.
  intros Hs. unfold plugin_system_init. rewrite Hs.
  unfold bind, plugin_registry_load, plugin_registry_prune, emit, ret.
  cbn [negb]. rewrite for_each_scan_run. reflexivity.
Qed.

Lemma dirs_walked_scans base (dirs : list string) :
  dirs_walked (flat_map (scan_log base) dirs) = map (filename_build base) dirs.
Proof.
  induction dirs as [| d dirs IH]; [reflexivity |].
  cbn [flat_map map]. unfold dirs_walked in *.
  rewrite flat_map_app, IH. cbn [flat_map app].
  fold (dirs_walked
          (flat_map log_of (entries_of (filename_build base d)))).
  rewrite dirs_walked_log. reflexivity.
Qed.

Lemma scans_have_no_registry_call base (dirs : list string) e :
  In e (flat_map (scan_log base) dirs) ->
  e <> EvRegistryLoad /\ e <> EvRegistryPrune /\ e <> EvRegistrySave.
Proof.
  rewrite in_flat_map. intros (d & _ & [<- | H]).
  - repeat split; discriminate.
  - now apply log_has_no_registry_call in H.
Qed.

(** C9: start-up loads the persisted registry first, then scans the seven
    directories Transport, Container, Input, Output, Effect, General,
    Visualization of the plugin directory, these and no other, in that
    order, and prunes the registry once, as its last action, after the scan
    of the last directory. *)
Theorem plugin_system_init_sequence g :
  g_module_supported = true ->
  let r := startup g in
  let dir := filename_build (aud_get_path AUD_PATH_PLUGIN_DIR) in
  let scan_of d := events (scan (dir d) g) in
  let kinds :=
    [ "Transport"; "Container"; "Input"; "Output"; "Effect"; "General";
      "Visualization" ]%string in
  result r = Some tt /\
  events r = [EvRegistryLoad] ++ flat_map scan_of kinds ++ [EvRegistryPrune] /\
  dirs_walked (events r) = map dir kinds /\
  count_occ Event_eq_dec (events r) EvRegistryPrune = 1%nat /\
  count_occ Event_eq_dec (events r) EvRegistryLoad = 1%nat /\
  ~ In EvRegistryPrune (flat_map scan_of kinds) /\
  globals r = g.
Proof.
  intros Hs r dir scan_of kinds. subst r.
  rewrite (startup_run g Hs). unfold result, events, globals. cbn [fst snd].
  assert (Hscan : flat_map scan_of kinds =
                  flat_map (scan_log (aud_get_path AUD_PATH_PLUGIN_DIR))
                    plugin_dir_list).
  { subst scan_of kinds dir. unfold plugin_dir_list.
    apply flat_map_ext. intros d. rewrite scan_plugins_run. reflexivity. }
  rewrite Hscan.
  set (body := flat_map (scan_log (aud_get_path AUD_PATH_PLUGIN_DIR))
                 plugin_dir_list).
  assert (Hbody : forall e, In e body ->
            e <> EvRegistryLoad /\ e <> EvRegistryPrune /\
            e <> EvRegistrySave)
    by (intros e; apply scans_have_no_registry_call).
  assert (Hprune : ~ In EvRegistryPrune body)
    by (intros H; apply Hbody in H; intuition congruence).
  assert (Hload : ~ In EvRegistryLoad body)
    by (intros H; apply Hbody in H; intuition congruence).
  split; [reflexivity |]. split; [reflexivity |]. split; [| split; [| split]].
  - unfold dirs_walked. cbn [flat_map app].
    rewrite flat_map_app. cbn [flat_map app]. rewrite app_nil_r.
    apply (dirs_walked_scans (aud_get_path AUD_PATH_PLUGIN_DIR)
             plugin_dir_list).
  - rewrite count_occ_cons_neq by discriminate.
    rewrite count_occ_app.
    rewrite (proj1 (count_occ_not_In Event_eq_dec body EvRegistryPrune) Hprune).
    rewrite (count_occ_cons_eq Event_eq_dec [] (eq_refl EvRegistryPrune)).
    reflexivity.
  - rewrite (count_occ_cons_eq Event_eq_dec _ (eq_refl EvRegistryLoad)).
    rewrite count_occ_app.
    rewrite (proj1 (count_occ_not_In Event_eq_dec body EvRegistryLoad) Hload).
    rewrite count_occ_cons_neq by discriminate. reflexivity.
  - split; [assumption | reflexivity].
Qed.

End ScanProperties.

(** * The properties on the concrete platform *)

(** On the demo platform a module carries the name it was opened by. *)
Lemma demo_open_name f m :
  Demo.g_module_open f = Some m -> file_name m = f.
Proof.
  unfold Demo.g_module_open. intros H. apply find_some in H as [_ H].
  now apply String.eqb_eq.
Qed.

(** C3 on the demo platform: a.so is valid and of kind Input, its init hook
    returns true: it is loaded, and init was called. *)
Lemma plugin_load_valid_module_witness :
  let r := Demo.load "Input/a.so" (mkGlobals []) in
  result r = Some Demo.a_plugin /\
  loaded_modules (globals r) =
    [mkLoadedModule Demo.a_plugin Demo.a_so] /\
  stderr_lines (events r) = [] /\
  closes (events r) = [].
Proof.
  apply (plugin_load_valid_module Demo.MAGIC Demo.VERSION_MIN
           Demo.VERSION Demo.g_module_open "Input/a.so" (mkGlobals [])
           Demo.a_so Demo.a_plugin).
  - reflexivity.
  - reflexivity.
  - reflexivity.
  - simpl. unfold Demo.VERSION_MIN, Demo.VERSION. lia.
  - simpl. intros b _ H. congruence.
Defined.

(** C4 as it was stated fails here: b.so has a wrong magic and the version 99,
    outside [1, 10]: the load fails with NotAPlugin, not with
    IncompatibleVersion. *)
Lemma incompatible_version_counterexample :
  let r := Demo.load "Input/b.so" (mkGlobals []) in
  Demo.g_module_open "Input/b.so" = Some Demo.b_so /\
  g_module_symbol Demo.b_so "_aud_plugin_self" = Some Demo.b_plugin /\
  version Demo.b_plugin > Demo.VERSION /\
  fails_with r (NotAPlugin "Input/b.so") /\
  ~ fails_with r (IncompatibleVersion "Input/b.so").
Proof.
  repeat split; try reflexivity.
  intros [_ H]. discriminate H.
Qed.

(** C4, as amended, on the demo platform: the three validation outcomes side
    by side: b.so (wrong magic) and libz.so (no descriptor) are not plugins,
    c.so (version 99) is incompatible. *)
Lemma plugin_load_validation_errors_witness :
  fails_with (Demo.load "Input/b.so" (mkGlobals []))
    (NotAPlugin "Input/b.so") /\
  fails_with (Demo.load "Input/libz.so" (mkGlobals []))
    (NotAPlugin "Input/libz.so") /\
  fails_with (Demo.load "Output/c.so" Demo.one_loaded)
    (IncompatibleVersion "Output/c.so") /\
  globals (Demo.load "Output/c.so" Demo.one_loaded)
  = Demo.one_loaded.
Proof.
  pose proof (plugin_load_validation_errors Demo.MAGIC Demo.VERSION_MIN
                Demo.VERSION Demo.g_module_open) as T.
  split; [| split; [| split]].
  - apply (proj1 (T "Input/b.so" (mkGlobals []))).
    exists Demo.b_so. split; [reflexivity |]. right.
    exists Demo.b_plugin. split; [reflexivity | discriminate].
  - apply (proj1 (T "Input/libz.so" (mkGlobals []))).
    exists Demo.libz_so. split; [reflexivity |]. left. reflexivity.
  - apply (proj1 (proj2 (T "Output/c.so" Demo.one_loaded))).
    exists Demo.c_so, Demo.c_plugin.
    repeat split. right. reflexivity.
  - apply (proj2 (proj2 (T "Output/c.so" Demo.one_loaded))).
    right. split; reflexivity.
Defined.

(** C5 on the demo platform: d.so is of kind Effect and its init hook returns
    false: init is called once, the load fails with InitFailed, d.so is closed
    and the loaded-set keeps its one entry. *)
Lemma plugin_load_init_hook_witness :
  let r := Demo.load "Effect/d.so" Demo.one_loaded in
  init_calls (events r) = [Demo.d_plugin] /\
  fails_with r (InitFailed "Effect/d.so") /\
  (exists m, Demo.g_module_open "Effect/d.so" = Some m /\
             opens (events r) = [m] /\ closes (events r) = [m]) /\
  globals r = Demo.one_loaded.
Proof.
  pose proof (plugin_load_init_hook Demo.MAGIC Demo.VERSION_MIN
                Demo.VERSION Demo.g_module_open "Effect/d.so"
                Demo.one_loaded) as (_ & _ & T).
  split; [reflexivity |].
  apply (T Demo.d_plugin); [left |]; reflexivity.
Defined.

(** C10 on the demo platform: the three failures after a successful open, on
    b.so, c.so and d.so. *)
Lemma plugin_load_failure_closes_module_witness :
  closes (events (Demo.load "Input/b.so" Demo.one_loaded))
  = [Demo.b_so] /\
  closes (events (Demo.load "Output/c.so" Demo.one_loaded))
  = [Demo.c_so] /\
  closes (events (Demo.load "Effect/d.so" Demo.one_loaded))
  = [Demo.d_so] /\
  globals (Demo.load "Effect/d.so" Demo.one_loaded)
  = Demo.one_loaded.
Proof.
  pose proof (plugin_load_failure_closes_module Demo.MAGIC
                Demo.VERSION_MIN Demo.VERSION Demo.g_module_open)
    as T.
  split; [| split; [| split]].
  - apply (T "Input/b.so" Demo.one_loaded Demo.b_so); reflexivity.
  - apply (T "Output/c.so" Demo.one_loaded Demo.c_so); reflexivity.
  - apply (T "Effect/d.so" Demo.one_loaded Demo.d_so); reflexivity.
  - apply (T "Effect/d.so" Demo.one_loaded Demo.d_so); reflexivity.
Defined.

(** C2 as it was stated fails here: loading a.so twice leaves two entries with
    the path of a.so. *)
Lemma duplicate_path_counterexample :
  let g :=
    globals
      (run_ops Demo.MAGIC Demo.VERSION_MIN Demo.VERSION false
         Demo.g_module_open [OpLoad "Input/a.so"; OpLoad "Input/a.so"]
         (mkGlobals [])) in
  map loaded_path (loaded_modules g) = ["Input/a.so"; "Input/a.so"]%string /\
  ~ NoDup (map loaded_path (loaded_modules g)).
Proof.
  split; [reflexivity |].
  intros H. apply NoDup_cons_iff in H as [H _]. apply H. left. reflexivity.
Qed.

(** C2, as amended, on the demo platform: a.so twice, a shutdown, then e.so
    and the invalid b.so: e.so alone is held. *)
Lemma loaded_paths_after_ops_witness :
  map loaded_path
    (loaded_modules
       (globals
          (run_ops Demo.MAGIC Demo.VERSION_MIN Demo.VERSION false
             Demo.g_module_open
             [ OpLoad "Input/a.so"; OpLoad "Input/a.so"; OpUnloadAll;
               OpLoad "Output/e.so"; OpLoad "Input/b.so" ]
             (mkGlobals []))))
  = ["Output/e.so"%string].
Proof.
  apply (loaded_paths_after_ops Demo.MAGIC Demo.VERSION_MIN
           Demo.VERSION false Demo.g_module_open
           [ OpLoad "Input/a.so"; OpLoad "Input/a.so"; OpUnloadAll;
             OpLoad "Output/e.so"; OpLoad "Input/b.so" ]
           (mkGlobals []) demo_open_name).
Defined.

(** C1 as it was stated fails here: with a.so loaded, the shutdown saves the
    registry and only then calls the cleanup hook and closes the module. *)
Lemma save_after_unload_counterexample :
  let r := plugin_system_cleanup false Demo.one_loaded in
  events r =
    [ EvRegistrySave; EvCleanup Demo.a_plugin; EvMutexLock;
      EvModuleClose Demo.a_so; EvMutexUnlock ]
  /\ precedes EvRegistrySave (EvCleanup Demo.a_plugin) (events r)
  /\ precedes EvRegistrySave (EvModuleClose Demo.a_so) (events r)
  /\ ~ precedes (EvCleanup Demo.a_plugin) EvRegistrySave (events r)
  /\ ~ precedes (EvModuleClose Demo.a_so) EvRegistrySave (events r).
Proof.
  split; [reflexivity |]. split; [| split; [| split]].
  - exists [], [], [EvMutexLock; EvModuleClose Demo.a_so; EvMutexUnlock].
    reflexivity.
  - exists [], [EvCleanup Demo.a_plugin; EvMutexLock], [EvMutexUnlock].
    reflexivity.
  - apply nothing_precedes_head. simpl. intuition discriminate.
  - apply nothing_precedes_head. simpl. intuition discriminate.
Qed.

(** C7 as it was stated fails here: after a.so was loaded twice, one shutdown
    closes its handle twice. *)
Lemma closed_once_counterexample :
  let g :=
    globals
      (run_ops Demo.MAGIC Demo.VERSION_MIN Demo.VERSION false
         Demo.g_module_open [OpLoad "Input/a.so"; OpLoad "Input/a.so"]
         (mkGlobals [])) in
  let r1 := plugin_system_cleanup false g in
  let r2 := plugin_system_cleanup false (globals r1) in
  closes (events r1 ++ events r2) = [Demo.a_so; Demo.a_so] /\
  count_occ GModule_eq_dec (closes (events r1 ++ events r2)) Demo.a_so
  = 2%nat.
Proof.
  split; [reflexivity |]. vm_compute. reflexivity.
Qed.

(** C9 on the demo platform: start-up runs: seven scans between the load and
    the prune of the registry. *)
Lemma plugin_system_init_sequence_witness :
  let r :=
    plugin_system_init Demo.g_stat true ".so" Demo.aud_get_path
      Demo.filename_build Demo.dir_entries (mkGlobals []) in
  result r = Some tt /\
  dirs_walked (events r) =
    [ "/usr/lib/audacious/Transport"; "/usr/lib/audacious/Container";
      "/usr/lib/audacious/Input"; "/usr/lib/audacious/Output";
      "/usr/lib/audacious/Effect"; "/usr/lib/audacious/General";
      "/usr/lib/audacious/Visualization" ]%string /\
  count_occ Event_eq_dec (events r) EvRegistryPrune = 1%nat.
Proof.
  pose proof (plugin_system_init_sequence Demo.g_stat true ".so"
                Demo.aud_get_path Demo.filename_build
                Demo.dir_entries (mkGlobals []) eq_refl)
    as (T1 & _ & T3 & T4 & _).
  split; [exact T1 |]. split; [exact T3 | exact T4].
Defined.

(** C8 on the demo platform: in the scan of the directory Input: a.so and B.SO
    are registered, gone.so is reported, README and the directory old.so are
    passed over. *)
Lemma scan_registers_candidates_witness :
  let r :=
    scan_plugins Demo.g_stat ".so" Demo.dir_entries "Input"
      (mkGlobals []) in
  registrations (events r) =
    [ ("Input/a.so"%string, 1400000000); ("Input/B.SO"%string, 1400000003) ]
  /\ stderr_lines (events r) = [StatFailed "Input/gone.so"].
Proof.
  pose proof (scan_registers_candidates Demo.g_stat ".so"
                Demo.dir_entries "Input" (mkGlobals []))
    as (T1 & _ & T3 & _).
  split; [exact T1 | exact T3].
Defined.

(** C6 on the demo platform: with e.so (kind Output, a cleanup hook it has no
    use for) and a.so (kind Input) loaded, the shutdown calls the cleanup hook
    of a.so alone, once, and empties the loaded-set. *)
Lemma plugin_system_cleanup_cleans_each_once_witness :
  let r := plugin_system_cleanup false Demo.two_loaded in
  cleanup_calls (events r) = [Demo.a_plugin] /\
  count_occ Plugin_eq_dec (cleanup_calls (events r)) Demo.e_plugin = 0%nat /\
  loaded_modules (globals r) = [].
Proof.
  pose proof (plugin_system_cleanup_cleans_each_once false Demo.two_loaded)
    as (T1 & T2 & T3).
  split; [exact T1 |]. split; [exact (T2 Demo.e_plugin) | exact T3].
Defined.

(** C1, as amended, on the demo platform: the log of that shutdown in full;
    the save comes first. *)
Lemma plugin_system_cleanup_saves_first_witness :
  exists rest,
    events (plugin_system_cleanup false Demo.two_loaded)
    = EvRegistrySave :: rest /\
    ~ In EvRegistrySave rest /\
    rest =
      [ EvMutexLock; EvModuleClose Demo.e_so; EvMutexUnlock;
        EvCleanup Demo.a_plugin; EvMutexLock; EvModuleClose Demo.a_so;
        EvMutexUnlock ].
Proof.
  destruct (plugin_system_cleanup_saves_first false Demo.two_loaded)
    as (rest & T1 & T2 & T3 & _).
  exists rest. split; [exact T1 |]. split; [exact T2 | exact T3].
Defined.

(** C7, as amended, on the demo platform: two shutdowns in a row with e.so and
    a.so loaded: each module is closed once, by the first. *)
Lemma plugin_system_cleanup_twice_witness :
  let r1 := plugin_system_cleanup false Demo.two_loaded in
  let r2 := plugin_system_cleanup false (globals r1) in
  events r2 = [EvRegistrySave] /\
  closes (events r1 ++ events r2) = [Demo.e_so; Demo.a_so].
Proof.
  pose proof (plugin_system_cleanup_twice false Demo.two_loaded)
    as (T1 & _ & _ & _ & T5 & _).
  split; [exact T1 | exact T5].
Defined.

(** * Further properties of [plugin_load] *)

Section LoadOutcomes.

Variables (MAGIC VERSION_MIN VERSION : Z).
Variable g_module_open : string -> option GModule.

Local Abbreviation load :=
  (plugin_load MAGIC VERSION_MIN VERSION g_module_open).
Local Abbreviation valid := (valid_descriptor MAGIC VERSION_MIN VERSION).
Local Abbreviation self := "_aud_plugin_self"%string.

(** The seven branches, the run rewritten in each, for one or two states. *)
Ltac load_branches filename :=
  let m := fresh "m" in
  let h := fresh "h" in
  let Ho := fresh "Ho" in
  let Hs := fresh "Hs" in
  let Hm := fresh "Hm" in
  let Hver := fresh "Hver" in
  let Hv := fresh "Hv" in
  let Hk := fresh "Hk" in
  let Hi := fresh "Hi" in
  destruct (load_cases MAGIC VERSION_MIN VERSION g_module_open filename)
    as [Ho | m Ho Hs | m h Ho Hs Hm | m h Ho Hs Hm Hver
        | m h Ho Hs Hv Hk Hi | m h Ho Hs Hv Hk Hi | m h Ho Hs Hv Hk];
  [ rewrite !(load_open_failed MAGIC VERSION_MIN VERSION _ filename _ Ho)
  | rewrite !(load_no_symbol MAGIC VERSION_MIN VERSION _ filename _ m Ho Hs)
  | rewrite !(load_bad_magic MAGIC VERSION_MIN VERSION _ filename _ m h
                Ho Hs Hm)
  | rewrite !(load_bad_version MAGIC VERSION_MIN VERSION _ filename _ m h
                Ho Hs Hm Hver)
  | rewrite !(load_init_failed MAGIC VERSION_MIN VERSION _ filename _ m h
                Ho Hs Hv Hk Hi)
  | rewrite !(load_init_ok MAGIC VERSION_MIN VERSION _ filename _ m h
                Ho Hs Hv Hk Hi)
  | rewrite !(load_no_init MAGIC VERSION_MIN VERSION _ filename _ m h
                Ho Hs Hv Hk) ];
  unfold fails_with, result, globals, events; cbn [fst snd].

Ltac one_module :=
  repeat match goal with
  | H1 : ?x = Some ?a, H2 : ?x = Some ?b |- _ =>
      assert (b = a) by congruence; subst b; clear H2
  end.

Ltac settle :=
  intros; unfold valid_descriptor in *;
  repeat match goal with
  | H : _ /\ _ |- _ => destruct H
  | H : exists _, _ |- _ => destruct H
  | H : _ \/ _ |- _ => destruct H
  end;
  one_module;
  try discriminate; try congruence; try lia;
  try solve [repeat split; first [congruence | eauto 10]].

(** X1: [plugin_load] returns a descriptor only of a module that passed
    every test: opened, the descriptor symbol present, magic and version
    fitting, and no init hook that was run and refused.  It is the converse
    of the success case: nothing else is ever returned or recorded. *)
Theorem plugin_load_success_iff filename g h :
  result (load filename g) = Some h <->
  exists m,
    g_module_open filename = Some m /\
    g_module_symbol m self = Some h /\
    magic h = MAGIC /\ VERSION_MIN <= version h <= VERSION /\
    (lifecycle_kind (type h) = true -> init h <> Some false).
Proof.
  load_branches filename; (split; [intros E; try discriminate E |]);
    try (intros (m' & Ho' & Hs' & Hm' & Hver' & Hinit'); one_module;
         try (exfalso; congruence)).
  - (* version out of range *) exfalso. lia.
  - (* init refused *) exfalso. now apply Hinit'.
  - (* init accepted *)
    injection E as <-. destruct Hv as [Hm Hver].
    exists m. repeat split; try assumption; try apply Hver. congruence.
  - reflexivity.
  - (* no init to run *)
    injection E as <-. destruct Hv as [Hm Hver].
    exists m. repeat split; try assumption; try apply Hver.
    destruct Hk; congruence.
  - reflexivity.
Qed.

(** X2: the two errors at the ends of [plugin_load].  It fails with
    OpenFailed exactly when [g_module_open] returns NULL, and then nothing
    was opened, so nothing is closed and no symbol is looked at; it fails
    with InitFailed exactly when the descriptor passed validation, its kind
    is one of the four, the init hook is present and returned false. *)
Theorem plugin_load_open_and_init_errors filename g :
  let r := load filename g in
  (fails_with r (OpenFailed filename) <-> g_module_open filename = None) /\
  (fails_with r (OpenFailed filename) ->
   events r = [EvStderr (OpenFailed filename)] /\ globals r = g) /\
  (fails_with r (InitFailed filename) <->
   exists m h, g_module_open filename = Some m /\
     g_module_symbol m self = Some h /\ valid h /\
     lifecycle_kind (type h) = true /\ init h = Some false).
Proof.
  intros r. subst r.
  load_branches filename; (split; [split | split; [| split]]); settle.
Qed.

(** X3: a failed [plugin_load] writes one line to stderr, closes what it
    opened and leaves the loaded-set as it was; a successful one writes
    nothing to stderr, closes nothing and puts one entry, made of what it
    returns and of the module it opened, in front of the others. *)
Theorem plugin_load_reports_each_failure_once filename g :
  let r := load filename g in
  match result r with
  | Some h =>
      stderr_lines (events r) = [] /\ closes (events r) = [] /\
      exists m, opens (events r) = [m] /\
        loaded_modules (globals r) = mkLoadedModule h m :: loaded_modules g
  | None =>
      (exists e, stderr_lines (events r) = [e]) /\
      opens (events r) = closes (events r) /\
      globals r = g
  end.
Proof.
  intros r. subst r.
  load_branches filename; simpl; repeat split; eauto.
Qed.

(** X4: [plugin_load] does not look at the loaded-set: from two states it
    returns the same thing and acts on the outside world the same way, and
    it puts the same entry, if any, in front of what either state holds.  No
    entry already held is dropped, moved or compared with. *)
Theorem plugin_load_ignores_loaded_set filename g1 g2 :
  result (load filename g1) = result (load filename g2) /\
  events (load filename g1) = events (load filename g2) /\
  exists added,
    (List.length added <= 1)%nat /\
    loaded_modules (globals (load filename g1)) = added ++ loaded_modules g1 /\
    loaded_modules (globals (load filename g2)) = added ++ loaded_modules g2.
Proof.
  load_branches filename; (split; [reflexivity |]);
    (split; [reflexivity |]);
    first [ exists []; repeat split; simpl; lia
          | exists [mkLoadedModule h m]; repeat split; simpl; lia ].
Qed.

(** What one load adds, for the invariants of a sequence of operations. *)
Lemma load_step_summary filename g :
  exists added,
    loaded_modules (globals (load filename g)) = added ++ loaded_modules g /\
    Forall (entry_validated MAGIC VERSION_MIN VERSION g_module_open) added /\
    (forall m,
       times_opened m (events (load filename g)) =
       (times_closed m (events (load filename g))
        + count_occ GModule_eq_dec (map module added) m)%nat) /\
    mutex_discipline false (events (load filename g)) = Some false.
Proof.
  unfold times_opened, times_closed.
  load_branches filename.
  1-5: exists []; (split; [reflexivity |]); (split; [constructor |]);
    (split; [| reflexivity]); intros m'; simpl;
    repeat destruct (GModule_eq_dec _ _); lia.
  - exists [mkLoadedModule h m]. split; [reflexivity |]. split.
    + constructor; [| constructor]. unfold entry_validated; simpl.
      repeat split; eauto; try apply Hv. congruence.
    + split; [| reflexivity]. intros m'; simpl.
      repeat destruct (GModule_eq_dec _ _); lia.
  - exists [mkLoadedModule h m]. split; [reflexivity |]. split.
    + constructor; [| constructor]. unfold entry_validated; simpl.
      repeat split; eauto; try apply Hv. destruct Hk; congruence.
    + split; [| reflexivity]. intros m'; simpl.
      repeat destruct (GModule_eq_dec _ _); lia.
Qed.

Lemma remove_one_head m open : remove_one m (m :: open) = Some open.
Proof.
  simpl. destruct (GModule_eq_dec m m); [reflexivity | congruence].
Qed.

Lemma exports_symbol m h :
  g_module_symbol m self = Some h -> exports h m = true.
Proof.
  intros H. unfold exports. rewrite H.
  destruct (Plugin_eq_dec h h); [reflexivity | congruence].
Qed.

(** One load, followed from the modules that are open. *)
Lemma load_keeps_modules_open filename g open :
  exists added,
    loaded_modules (globals (load filename g)) = added ++ loaded_modules g /\
    modules_used_while_open open (events (load filename g))
    = Some (map module added ++ open).
Proof.
  load_branches filename.
  - exists []. split; reflexivity.
  - exists []. split; [reflexivity |].
    cbn [modules_used_while_open]. now rewrite remove_one_head.
  - exists []. split; [reflexivity |].
    cbn [modules_used_while_open]. now rewrite remove_one_head.
  - exists []. split; [reflexivity |].
    cbn [modules_used_while_open]. now rewrite remove_one_head.
  - exists []. split; [reflexivity |].
    cbn [modules_used_while_open existsb].
    rewrite (exports_symbol m h Hs). cbn [orb].
    now rewrite remove_one_head.
  - exists [mkLoadedModule h m]. split; [reflexivity |].
    cbn [modules_used_while_open existsb].
    rewrite (exports_symbol m h Hs). reflexivity.
  - exists [mkLoadedModule h m]. split; reflexivity.
Qed.

End LoadOutcomes.

(** * Further properties of sequences of loads and shutdowns *)

Section RunProperties.

Variables (MAGIC VERSION_MIN VERSION : Z).
Variable VALGRIND_FRIENDLY : bool.
Variable g_module_open : string -> option GModule.

Local Abbreviation load :=
  (plugin_load MAGIC VERSION_MIN VERSION g_module_open).
Local Abbreviation run :=
  (run_ops MAGIC VERSION_MIN VERSION VALGRIND_FRIENDLY g_module_open).
Local Abbreviation step :=
  (run_op MAGIC VERSION_MIN VERSION VALGRIND_FRIENDLY g_module_open).
Local Abbreviation shutdown := (plugin_system_cleanup VALGRIND_FRIENDLY).
Local Abbreviation validated :=
  (entry_validated MAGIC VERSION_MIN VERSION g_module_open).

(** ** How runs compose *)

Lemma run_cons op ops g :
  globals (run (op :: ops) g) = globals (run ops (globals (step op g))) /\
  events (run (op :: ops) g) =
  events (step op g) ++ events (run ops (globals (step op g))).
Proof.
  unfold run_ops. simpl. unfold bind, globals, events.
  destruct (step op g) as [[u g1] l1]. simpl.
  destruct (for_each step ops g1) as [[u' g2] l2]. split; reflexivity.
Qed.

Lemma run_app ops1 ops2 g :
  globals (run (ops1 ++ ops2) g) = globals (run ops2 (globals (run ops1 g)))
  /\ events (run (ops1 ++ ops2) g) =
     events (run ops1 g) ++ events (run ops2 (globals (run ops1 g))).
Proof.
  revert g. induction ops1 as [| op ops1 IH]; intros g.
  - split; reflexivity.
  - cbn [app].
    destruct (run_cons op (ops1 ++ ops2) g) as [Hg He].
    destruct (run_cons op ops1 g) as [Hg1 He1].
    destruct (IH (globals (step op g))) as [IHg IHe].
    rewrite Hg, He, Hg1, He1, IHg, IHe. split; [reflexivity |].
    apply app_assoc.
Qed.

Lemma step_load filename g :
  globals (step (OpLoad filename) g) = globals (load filename g) /\
  events (step (OpLoad filename) g) = events (load filename g).
Proof.
  simpl. unfold bind, ret, globals, events.
  destruct (load filename g) as [[u g1] l1]. simpl.
  split; [reflexivity | apply app_nil_r].
Qed.

Lemma step_shutdown g :
  globals (step OpUnloadAll g) = mkGlobals [] /\
  events (step OpUnloadAll g) =
  EvRegistrySave
  :: flat_map (unload_events VALGRIND_FRIENDLY) (loaded_modules g).
Proof. simpl. rewrite shutdown_run. split; reflexivity. Qed.

(** ** The entries of the loaded-set *)

(** X5: the loaded-set only ever holds validated entries.  If every entry
    is one a successful load makes -- a module [g_module_open] returned, the
    descriptor it exports, magic and version fitting, no init hook that
    refused -- then so is every entry after any sequence of loads and
    shutdowns. *)
Theorem loaded_entries_stay_validated ops g :
  Forall validated (loaded_modules g) ->
  Forall validated (loaded_modules (globals (run ops g))).
Proof.
  revert g. induction ops as [| op ops IH]; intros g Hg; [assumption |].
  rewrite (proj1 (run_cons op ops g)). apply IH.
  destruct op as [filename |].
  - rewrite (proj1 (step_load filename g)).
    destruct (load_step_summary MAGIC VERSION_MIN VERSION g_module_open
                filename g) as (added & -> & Hadded & _).
    apply Forall_app. split; assumption.
  - rewrite (proj1 (step_shutdown g)). constructor.
Qed.

(** ** Opening and closing *)

Lemma opens_app l1 l2 : opens (l1 ++ l2) = opens l1 ++ opens l2.
Proof. apply flat_map_app. Qed.

Lemma opens_unload_log l :
  opens (flat_map (unload_events VALGRIND_FRIENDLY) l) = [].
Proof.
  induction l as [| lm l IH]; [reflexivity |].
  cbn [flat_map]. rewrite opens_app, IH. unfold unload_events.
  destruct (wants_cleanup (header lm)), VALGRIND_FRIENDLY; reflexivity.
Qed.

(** X6: modules are closed as often as they are opened.  In a build that
    closes modules, over any sequence of loads and shutdowns, the number of
    times a module was opened plus the number of entries that held it at
    the start equals the number of times it was closed plus the number of
    entries that hold it at the end.  After a shutdown nothing is held, so
    nothing opened is left open. *)
Theorem modules_opened_and_closed_balance ops g m :
  VALGRIND_FRIENDLY = false ->
  let r := run ops g in
  (times_opened m (events r) + times_held m g =
   times_closed m (events r) + times_held m (globals r))%nat.
Proof.
  intros Hvf. revert g. induction ops as [| op ops IH]; intros g r; subst r.
  - reflexivity.
  - destruct (run_cons op ops g) as [Hg He]. rewrite Hg, He.
    specialize (IH (globals (step op g))). cbv zeta in IH.
    unfold times_opened, times_closed in *.
    rewrite opens_app, closes_app, !count_occ_app.
    destruct op as [filename |].
    + destruct (step_load filename g) as [Hg1 He1].
      rewrite He1 in *. rewrite Hg1 in *.
      destruct (load_step_summary MAGIC VERSION_MIN VERSION g_module_open
                  filename g) as (added & Hl & _ & Hbal & _).
      specialize (Hbal m). unfold times_opened, times_closed in Hbal.
      unfold times_held in *. rewrite Hl, map_app, count_occ_app in IH.
      lia.
    + destruct (step_shutdown g) as [Hg1 He1].
      rewrite He1 in *. rewrite Hg1 in *.
      change (opens (EvRegistrySave
                     :: flat_map (unload_events VALGRIND_FRIENDLY)
                          (loaded_modules g)))
        with (opens (flat_map (unload_events VALGRIND_FRIENDLY)
                       (loaded_modules g))).
      rewrite opens_unload_log, closes_save, closes_unload_log.
      rewrite Hvf in IH |- *. unfold times_held in *.
      cbn [loaded_modules map count_occ] in IH |- *. lia.
Qed.

(** ** The mutex *)

Lemma mutex_discipline_app l1 : forall held l2,
  mutex_discipline held (l1 ++ l2) =
  match mutex_discipline held l1 with
  | Some held' => mutex_discipline held' l2
  | None => None
  end.
Proof.
  induction l1 as [| e l1 IH]; intros held l2; [reflexivity |].
  destruct held, e; simpl; auto.
Qed.

Lemma mutex_discipline_unload_log l :
  mutex_discipline false (flat_map (unload_events VALGRIND_FRIENDLY) l)
  = Some false.
Proof.
  induction l as [| lm l IH]; [reflexivity |].
  cbn [flat_map]. rewrite mutex_discipline_app.
  replace (mutex_discipline false (unload_events VALGRIND_FRIENDLY lm))
    with (Some false); [assumption |].
  unfold unload_events.
  destruct (wants_cleanup (header lm)), VALGRIND_FRIENDLY; reflexivity.
Qed.

(** X7: the mutex is used with discipline.  Along any sequence of loads and
    shutdowns the mutex is taken only when free and released only when
    held, it is free at the end, and between taking and releasing it the
    program does nothing to the outside world but close a module: no init
    or cleanup hook of a plugin ever runs with the mutex held. *)
Theorem mutex_is_used_with_discipline ops g :
  mutex_discipline false (events (run ops g)) = Some false.
Proof.
  revert g. induction ops as [| op ops IH]; intros g; [reflexivity |].
  rewrite (proj2 (run_cons op ops g)), mutex_discipline_app.
  destruct op as [filename |].
  - rewrite (proj2 (step_load filename g)).
    destruct (load_step_summary MAGIC VERSION_MIN VERSION g_module_open
                filename g) as (added & _ & _ & _ & ->).
    apply IH.
  - rewrite (proj2 (step_shutdown g)).
    change (mutex_discipline false
              (EvRegistrySave
               :: flat_map (unload_events VALGRIND_FRIENDLY)
                    (loaded_modules g)))
      with (mutex_discipline false
              (flat_map (unload_events VALGRIND_FRIENDLY)
                 (loaded_modules g))).
    rewrite mutex_discipline_unload_log. apply IH.
Qed.

(** ** Order *)

Lemma loaded_entry_rev filename :
  rev (loaded_entry MAGIC VERSION_MIN VERSION g_module_open filename)
  = loaded_entry MAGIC VERSION_MIN VERSION g_module_open filename.
Proof.
  unfold loaded_entry.
  destruct (load_step_summary MAGIC VERSION_MIN VERSION g_module_open
              filename (mkGlobals [])) as (added & Hl & _).
  destruct (plugin_load_ignores_loaded_set MAGIC VERSION_MIN VERSION
              g_module_open filename (mkGlobals []) (mkGlobals []))
    as (_ & _ & added' & Hlen & Ha & _).
  rewrite Ha. simpl. rewrite app_nil_r.
  destruct added' as [| x [| y rest]]; simpl in *; try reflexivity. lia.
Qed.

Lemma loaded_after_loads (files : list string) g :
  loaded_modules (globals (run (map OpLoad files) g)) =
  rev (flat_map (loaded_entry MAGIC VERSION_MIN VERSION g_module_open) files)
  ++ loaded_modules g.
Proof.
  revert g. induction files as [| f files IH]; intros g; [reflexivity |].
  cbn [map flat_map].
  rewrite (proj1 (run_cons (OpLoad f) (map OpLoad files) g)), IH.
  rewrite (proj1 (step_load f g)), load_globals.
  rewrite rev_app_distr, loaded_entry_rev, app_assoc. reflexivity.
Qed.

(** X8: shutdown unloads in the reverse of the order of loading.  After a
    series of loads from the empty loaded-set, the list holds the entries of
    the loads that succeeded, the last one first; the shutdown calls the
    cleanup hooks in that order and, in a build that closes modules, closes
    the modules in that order. *)
Theorem shutdown_unloads_newest_first (files : list string) :
  let added :=
    flat_map (loaded_entry MAGIC VERSION_MIN VERSION g_module_open) files in
  let g := globals (run (map OpLoad files) (mkGlobals [])) in
  loaded_modules g = rev added /\
  cleanup_calls (events (shutdown g)) =
    rev (map header (filter (fun lm => wants_cleanup (header lm)) added)) /\
  closes (events (shutdown g)) =
    if VALGRIND_FRIENDLY then [] else rev (map module added).
Proof.
  intros added g. subst g.
  assert (Hl : loaded_modules
                 (globals (run (map OpLoad files) (mkGlobals [])))
               = rev added).
  { rewrite loaded_after_loads. apply app_nil_r. }
  split; [exact Hl |]. rewrite shutdown_run. unfold events. cbn [snd].
  rewrite cleanup_calls_save, closes_save.
  rewrite cleanup_calls_unload_log, closes_unload_log, Hl.
  split.
  - rewrite filter_rev, map_rev. reflexivity.
  - destruct VALGRIND_FRIENDLY; [reflexivity | apply map_rev].
Qed.

(** X9: a shutdown starts afresh.  Whatever ran before it, what runs after
    an unloadAll behaves as from the empty loaded-set: the same actions on
    the outside world and the same loaded-set at the end. *)
Theorem shutdown_starts_afresh ops1 ops2 g :
  globals (run (ops1 ++ OpUnloadAll :: ops2) g)
  = globals (run ops2 (mkGlobals [])) /\
  events (run (ops1 ++ OpUnloadAll :: ops2) g)
  = events (run (ops1 ++ [OpUnloadAll]) g)
    ++ events (run ops2 (mkGlobals [])).
Proof.
  change (ops1 ++ OpUnloadAll :: ops2)
    with (ops1 ++ [OpUnloadAll] ++ ops2).
  rewrite app_assoc.
  destruct (run_app (ops1 ++ [OpUnloadAll]) ops2 g) as [Hg He].
  assert (Hempty : globals (run (ops1 ++ [OpUnloadAll]) g) = mkGlobals []).
  { rewrite (proj1 (run_app ops1 [OpUnloadAll] _)).
    rewrite (proj1 (run_cons OpUnloadAll [] _)).
    apply (proj1 (step_shutdown _)). }
  rewrite Hg, He, Hempty. split; reflexivity.
Qed.

(** ** Plugin code runs in open modules only *)

Lemma modules_used_app l1 : forall open l2,
  modules_used_while_open open (l1 ++ l2) =
  match modules_used_while_open open l1 with
  | Some open' => modules_used_while_open open' l2
  | None => None
  end.
Proof.
  induction l1 as [| e l1 IH]; intros open l2; [reflexivity |].
  destruct e; cbn [app modules_used_while_open]; auto.
  - destruct (remove_one m open); auto.
  - destruct (existsb (exports h) open); auto.
  - destruct (existsb (exports h) open); auto.
Qed.

Lemma remove_one_In m : forall open,
  In m open ->
  exists open', remove_one m open = Some open' /\
                Permutation open (m :: open').
Proof.
  induction open as [| x open IH]; intros Hin; [contradiction |].
  simpl. destruct (GModule_eq_dec x m) as [-> | Hne].
  - exists open. split; [reflexivity | apply Permutation_refl].
  - destruct Hin as [-> | Hin]; [congruence |].
    destruct (IH Hin) as (open' & -> & Hp).
    exists (x :: open'). split; [reflexivity |].
    apply Permutation_trans with (x :: m :: open').
    + now apply perm_skip.
    + apply perm_swap.
Qed.

(** The shutdown loop, followed from the modules that are open: every
    entry finds its module open. *)
Lemma unload_keeps_modules_open l : forall open extra,
  Forall validated l ->
  Permutation open (map module l ++ extra) ->
  exists open',
    modules_used_while_open open
      (flat_map (unload_events VALGRIND_FRIENDLY) l) = Some open' /\
    Permutation open'
      (if VALGRIND_FRIENDLY then map module l ++ extra else extra).
Proof.
  induction l as [| lm l IH]; intros open extra Hval Hperm.
  - exists open. split; [reflexivity |].
    destruct VALGRIND_FRIENDLY; assumption.
  - inversion Hval as [| ? ? Hlm Hl]; subst.
    assert (Hin : In (module lm) open).
    { apply (Permutation_in _ (Permutation_sym Hperm)). left. reflexivity. }
    assert (Hexp : existsb (exports (header lm)) open = true).
    { apply existsb_exists. exists (module lm). split; [assumption |].
      apply exports_symbol. apply Hlm. }
    cbn [flat_map]. rewrite modules_used_app.
    unfold unload_events.
    destruct VALGRIND_FRIENDLY eqn:Hvf.
    + (* nothing is closed *)
      assert (Hstep : modules_used_while_open open
                ((if wants_cleanup (header lm)
                  then [EvCleanup (header lm)] else [])
                 ++ [EvMutexLock] ++ [] ++ [EvMutexUnlock]) = Some open).
      { destruct (wants_cleanup (header lm));
          cbn [app modules_used_while_open]; [rewrite Hexp |]; reflexivity. }
      rewrite Hstep.
      destruct (IH open (module lm :: extra) Hl) as (open' & Hrun & Hp).
      { apply Permutation_trans with (1 := Hperm). cbn [map app].
        apply Permutation_middle. }
      exists open'. split; [assumption |].
      apply Permutation_trans with (1 := Hp). cbn [map app].
      apply Permutation_sym, Permutation_middle.
    + (* the module of the entry is closed *)
      destruct (remove_one_In (module lm) open Hin) as (open1 & Hrm & Hp1).
      assert (Hstep : modules_used_while_open open
                ((if wants_cleanup (header lm)
                  then [EvCleanup (header lm)] else [])
                 ++ [EvMutexLock] ++ [EvModuleClose (module lm)]
                 ++ [EvMutexUnlock]) = Some open1).
      { destruct (wants_cleanup (header lm));
          cbn [app modules_used_while_open];
          [rewrite Hexp |]; rewrite Hrm; reflexivity. }
      rewrite Hstep.
      apply (IH open1 extra Hl).
      apply Permutation_cons_inv with (module lm).
      apply Permutation_trans with (1 := Permutation_sym Hp1).
      exact Hperm.
Qed.

(** X15: plugin code runs in open modules only, and no module is closed
    twice.  From a loaded-set of validated entries whose modules are open,
    along any sequence of loads and shutdowns: every call of
    [g_module_close] is for a module that is open at that moment, and every
    init or cleanup hook that is called belongs to a descriptor exported by
    a module open at that moment.  In a build that closes modules, the
    modules open at the end are those the loaded-set holds. *)
Theorem hooks_run_in_open_modules ops g :
  Forall validated (loaded_modules g) ->
  exists open',
    modules_used_while_open (map module (loaded_modules g))
      (events (run ops g)) = Some open' /\
    (VALGRIND_FRIENDLY = false ->
     Permutation open' (map module (loaded_modules (globals (run ops g))))).
Proof.
  intros Hval.
  assert (Hgen : forall ops g open extra,
    Forall validated (loaded_modules g) ->
    Permutation open (map module (loaded_modules g) ++ extra) ->
    exists open' extra',
      modules_used_while_open open (events (run ops g)) = Some open' /\
      Permutation open'
        (map module (loaded_modules (globals (run ops g))) ++ extra') /\
      (VALGRIND_FRIENDLY = false -> extra' = extra)).
  { clear ops g Hval.
    induction ops as [| op ops IH]; intros g open extra Hval Hperm.
    - exists open, extra. repeat split; assumption.
    - destruct (run_cons op ops g) as [Hg He]. rewrite Hg, He.
      rewrite modules_used_app.
      destruct op as [filename |].
      + destruct (step_load filename g) as [Hg1 He1]. rewrite Hg1, He1.
        destruct (load_keeps_modules_open MAGIC VERSION_MIN VERSION
                    g_module_open filename g open)
          as (added & Hl & ->).
        apply (IH (globals (load filename g)) (map module added ++ open)
                 extra).
        * destruct (load_step_summary MAGIC VERSION_MIN VERSION
                      g_module_open filename g) as (added' & -> & Hadd & _).
          apply Forall_app. split; assumption.
        * rewrite Hl, map_app, <- app_assoc.
          now apply Permutation_app_head.
      + destruct (step_shutdown g) as [Hg1 He1]. rewrite Hg1, He1.
        change (modules_used_while_open open
                  (EvRegistrySave
                   :: flat_map (unload_events VALGRIND_FRIENDLY)
                        (loaded_modules g)))
          with (modules_used_while_open open
                  (flat_map (unload_events VALGRIND_FRIENDLY)
                     (loaded_modules g))).
        destruct (unload_keeps_modules_open (loaded_modules g) open extra
                    Hval Hperm) as (open1 & -> & Hp1).
        destruct (IH (mkGlobals []) open1
                    (if VALGRIND_FRIENDLY
                     then map module (loaded_modules g) ++ extra
                     else extra))
          as (open' & extra' & Hrun & Hp & Hex).
        * constructor.
        * exact Hp1.
        * exists open', extra'. split; [assumption |].
          split; [assumption |]. intros Hvf.
          rewrite (Hex Hvf), Hvf. reflexivity. }
  destruct (Hgen ops g (map module (loaded_modules g)) [] Hval)
    as (open' & extra' & Hrun & Hp & Hex).
  { rewrite app_nil_r. apply Permutation_refl. }
  exists open'. split; [assumption |]. intros Hvf.
  rewrite (Hex Hvf), app_nil_r in Hp. exact Hp.
Qed.

End RunProperties.

(** * Further properties of shutdown, of the scan and of start-up *)

(** X10: what VALGRIND_FRIENDLY changes.  A build with the macro runs the
    same cleanup hooks in the same order and empties the loaded-set as the
    plain build does, but closes no module; the plain build closes the
    module of every entry, in the order of the list. *)
Theorem valgrind_friendly_shutdown g :
  cleanup_calls (events (plugin_system_cleanup true g))
  = cleanup_calls (events (plugin_system_cleanup false g)) /\
  closes (events (plugin_system_cleanup true g)) = [] /\
  closes (events (plugin_system_cleanup false g))
  = map module (loaded_modules g) /\
  globals (plugin_system_cleanup true g)
  = globals (plugin_system_cleanup false g).
Proof.
  rewrite !shutdown_run. unfold events, globals. cbn [fst snd].
  rewrite !cleanup_calls_save, !closes_save, !cleanup_calls_unload_log.
  rewrite (closes_unload_log true), (closes_unload_log false).
  repeat split.
Qed.

Section MoreScanProperties.

Variable g_stat : string -> option GStatBuf.
Variable g_module_supported : bool.
Variable PLUGIN_SUFFIX : string.
Variable aud_get_path : AudPath -> string.
Variable filename_build : string -> string -> string.
Variable dir_entries : string -> option (list (string * string)).

Local Abbreviation scan_func := (scan_plugin_func g_stat PLUGIN_SUFFIX).
Local Abbreviation log_of := (entry_log g_stat PLUGIN_SUFFIX).
Local Abbreviation candidate := (is_candidate g_stat PLUGIN_SUFFIX).
Local Abbreviation unreadable := (stat_fails g_stat PLUGIN_SUFFIX).
Local Abbreviation entries_of := (listing dir_entries).
Local Abbreviation startup :=
  (plugin_system_init g_stat g_module_supported PLUGIN_SUFFIX aud_get_path
     filename_build dir_entries).
Local Abbreviation plugin_dir := (aud_get_path AUD_PATH_PLUGIN_DIR).

(** X11: the callback of the scan never asks the walk to stop and never
    touches the loaded-set; it does at most one thing for an entry, and
    nothing at all for a name without the plugin suffix, whatever a stat of
    the file would say. *)
Theorem scan_plugin_func_goes_on path basename g :
  let r := scan_func path basename g in
  result r = false /\
  globals r = g /\
  (List.length (events r) <= 1)%nat /\
  (str_has_suffix_nocase basename PLUGIN_SUFFIX = false -> events r = []).
Proof.
  intros r. subst r. rewrite scan_plugin_func_run.
  unfold result, globals, events. cbn [fst snd].
  split; [reflexivity |]. split; [reflexivity |].
  rewrite entry_log_cases. unfold is_candidate, stat_fails. cbn [fst snd].
  split.
  - destruct (str_has_suffix_nocase basename PLUGIN_SUFFIX),
      (g_stat path) as [st |]; simpl; try lia.
    destruct (S_ISREG (st_mode st)); simpl; lia.
  - intros ->. reflexivity.
Qed.

(** The bits of the file type decide [S_ISREG], the permission bits do
    not. *)
Lemma land_file_type (kind perms : Z) :
  0 <= perms < 4096 -> 0 <= kind < 16 ->
  Z.land (Z.lor (Z.shiftl kind 12) perms) S_IFMT = Z.shiftl kind 12.
Proof.
  intros Hp Hk. apply Z.bits_inj'. intros n Hn.
  rewrite Z.land_spec, Z.lor_spec.
  change S_IFMT with (Z.shiftl 15 12).
  rewrite !Z.shiftl_spec by assumption.
  destruct (Z.ltb_spec n 12) as [Hlt | Hge].
  - rewrite !(Z.testbit_neg_r _ (n - 12)) by lia.
    simpl. apply andb_false_r.
  - assert (Hpn : Z.testbit perms n = false).
    { destruct (Z.eq_dec perms 0) as [-> | Hnz]; [apply Z.bits_0 |].
      apply Z.bits_above_log2; [lia |].
      apply Z.log2_lt_pow2; [lia |].
      apply Z.lt_le_trans with (2 ^ 12); [change (2 ^ 12) with 4096; lia |].
      apply Z.pow_le_mono_r; lia. }
    rewrite Hpn, orb_false_r.
    destruct (Z.ltb_spec (n - 12) 4) as [Hlt | Hge4].
    + assert (H15 : Z.testbit 15 (n - 12) = true).
      { assert (Hc : n - 12 = 0 \/ n - 12 = 1 \/ n - 12 = 2 \/ n - 12 = 3)
          by lia.
        destruct Hc as [-> | [-> | [-> | ->]]]; reflexivity. }
      rewrite H15. apply andb_true_r.
    + assert (Hkn : Z.testbit kind (n - 12) = false).
      { destruct (Z.eq_dec kind 0) as [-> | Hnz]; [apply Z.bits_0 |].
        apply Z.bits_above_log2; [lia |].
        apply Z.log2_lt_pow2; [lia |].
        apply Z.lt_le_trans with (2 ^ 4); [change (2 ^ 4) with 16; lia |].
        apply Z.pow_le_mono_r; lia. }
      rewrite Hkn. reflexivity.
Qed.

(** X12: what the scan makes of a file with the plugin suffix depends on
    the type bits of its mode alone.  A regular file is registered with its
    modification time whatever its permission bits; a directory of that
    name is passed over without a word. *)
Theorem scan_plugin_func_by_file_type path basename g st perms :
  str_has_suffix_nocase basename PLUGIN_SUFFIX = true ->
  g_stat path = Some st ->
  0 <= perms < 4096 ->
  (st_mode st = Z.lor S_IFREG perms ->
   events (scan_func path basename g) = [EvRegister path (st_mtime st)]) /\
  (st_mode st = Z.lor S_IFDIR perms ->
   events (scan_func path basename g) = []).
Proof.
  intros Hsuffix Hstat Hperms.
  rewrite scan_plugin_func_run. unfold events. cbn [snd].
  rewrite entry_log_cases.
  unfold is_candidate, stat_fails, mtime_of. cbn [fst snd].
  rewrite Hsuffix, Hstat. unfold S_ISREG. split; intros ->.
  - change S_IFREG with (Z.shiftl 8 12).
    rewrite land_file_type by lia. reflexivity.
  - change S_IFDIR with (Z.shiftl 4 12).
    rewrite land_file_type by lia. reflexivity.
Qed.

Lemma scan_events_log entries :
  Forall (fun e => scan_event e = true) (flat_map log_of entries).
Proof.
  apply Forall_forall. intros e H. apply in_flat_map in H as (x & _ & H).
  rewrite entry_log_cases in H.
  destruct (candidate x), (unreadable x); simpl in H;
    intuition (subst; reflexivity).
Qed.

Lemma scan_events_dirs base (dirs : list string) :
  Forall (fun e => scan_event e = true)
    (flat_map (fun d => EvDirForeach (filename_build base d)
                        :: flat_map log_of
                             (entries_of (filename_build base d))) dirs).
Proof.
  induction dirs as [| d dirs IH]; [constructor |].
  cbn [flat_map]. apply Forall_app. split; [| assumption].
  constructor; [reflexivity | apply scan_events_log].
Qed.

(** X13: start-up loads no plugin.  It only calls the registry, walks
    directories and reports stat failures: it opens no module, runs no hook
    of a plugin and leaves the loaded-set as it was.  Where GLib has no
    support for modules, the assertion stops it before it does anything. *)
Theorem plugin_system_init_loads_nothing g :
  let r := startup g in
  Forall (fun e => scan_event e = true) (events r) /\
  opens (events r) = [] /\
  init_calls (events r) = [] /\
  globals r = g /\
  (g_module_supported = false -> result r = None /\ events r = []).
Proof.
  intros r. subst r.
  assert (Hnone : forall l,
            Forall (fun e => scan_event e = true) l ->
            opens l = [] /\ init_calls l = []).
  { induction l as [| e l IH]; intros H; [split; reflexivity |].
    inversion H as [| ? ? He Hl]; subst.
    destruct (IH Hl) as [Ho Hi]. unfold opens, init_calls in *.
    cbn [flat_map]. rewrite Ho, Hi.
    destruct e; try discriminate He; split; reflexivity. }
  destruct g_module_supported eqn:Hs.
  - rewrite (startup_run g_stat true PLUGIN_SUFFIX aud_get_path
               filename_build dir_entries g eq_refl).
    unfold events, globals. cbn [fst snd].
    assert (Hall : Forall (fun e => scan_event e = true)
              (EvRegistryLoad
               :: flat_map
                    (fun d => EvDirForeach (filename_build plugin_dir d)
                              :: flat_map log_of
                                   (entries_of (filename_build plugin_dir d)))
                    plugin_dir_list ++ [EvRegistryPrune])).
    { constructor; [reflexivity |]. apply Forall_app. split.
      - apply scan_events_dirs.
      - constructor; [reflexivity | constructor]. }
    destruct (Hnone _ Hall) as [Ho Hi].
    repeat split; try assumption. all: discriminate.
  - unfold plugin_system_init, ret, events, globals, result. cbn.
    repeat split; auto.
Qed.

(** X14: start-up registers the plugins of the seven directories.  The
    calls of [plugin_register] it makes are those for the candidates of
    Transport, then of Container, Input, Output, Effect, General and
    Visualization, each with its path and modification time; the lines it
    writes to stderr are those for the files with the suffix whose stat
    fails, in the same order. *)
Theorem plugin_system_init_registers_candidates g :
  g_module_supported = true ->
  let r := startup g in
  let dir d := entries_of (filename_build plugin_dir d) in
  registrations (events r) =
    flat_map (fun d => map (fun e => (fst e, mtime_of g_stat (fst e)))
                         (filter candidate (dir d)))
      plugin_dir_list /\
  stderr_lines (events r) =
    flat_map (fun d => map (fun e => StatFailed (fst e))
                         (filter unreadable (dir d)))
      plugin_dir_list.
Proof.
  intros Hs r dir. subst r dir.
  rewrite (startup_run g_stat g_module_supported PLUGIN_SUFFIX aud_get_path
             filename_build dir_entries g Hs).
  unfold events. cbn [snd].
  assert (Hreg : forall dirs : list string,
    registrations
      (flat_map (fun d => EvDirForeach (filename_build plugin_dir d)
                          :: flat_map log_of
                               (entries_of (filename_build plugin_dir d)))
         dirs)
    = flat_map (fun d => map (fun e => (fst e, mtime_of g_stat (fst e)))
                  (filter candidate (entries_of (filename_build plugin_dir d))))
        dirs).
  { induction dirs as [| d dirs IH]; [reflexivity |].
    cbn [flat_map]. unfold registrations in *.
    rewrite flat_map_app, IH. f_equal.
    apply (registrations_log g_stat PLUGIN_SUFFIX). }
  assert (Herr : forall dirs : list string,
    stderr_lines
      (flat_map (fun d => EvDirForeach (filename_build plugin_dir d)
                          :: flat_map log_of
                               (entries_of (filename_build plugin_dir d)))
         dirs)
    = flat_map (fun d => map (fun e => StatFailed (fst e))
                  (filter unreadable (entries_of (filename_build plugin_dir d))))
        dirs).
  { induction dirs as [| d dirs IH]; [reflexivity |].
    cbn [flat_map]. unfold stderr_lines in *.
    rewrite flat_map_app, IH. f_equal.
    apply (stderr_log g_stat PLUGIN_SUFFIX). }
  split.
  - unfold registrations. cbn [flat_map app].
    rewrite flat_map_app. cbn [flat_map]. rewrite app_nil_r.
    apply Hreg.
  - unfold stderr_lines. cbn [flat_map app].
    rewrite flat_map_app. cbn [flat_map]. rewrite app_nil_r.
    apply Herr.
Qed.

End MoreScanProperties.

(** * The further properties on the concrete platform *)

(** X5 on the demo platform: from a.so loaded, after loading a.so again,
    the invalid b.so and e.so, every entry held is a validated one. *)
Lemma loaded_entries_stay_validated_witness :
  Forall
    (entry_validated Demo.MAGIC Demo.VERSION_MIN Demo.VERSION
       Demo.g_module_open)
    (loaded_modules
       (globals
          (run_ops Demo.MAGIC Demo.VERSION_MIN Demo.VERSION false
             Demo.g_module_open
             [OpLoad "Input/a.so"; OpLoad "Input/b.so"; OpLoad "Output/e.so"]
             Demo.one_loaded))).
Proof.
  apply (loaded_entries_stay_validated Demo.MAGIC Demo.VERSION_MIN
           Demo.VERSION false Demo.g_module_open).
  constructor; [| constructor].
  unfold entry_validated, valid_descriptor; simpl.
  split; [exists "Input/a.so"%string; reflexivity |].
  split; [reflexivity |].
  unfold Demo.VERSION_MIN, Demo.VERSION.
  repeat split; try lia. discriminate.
Defined.

(** X6 on the demo platform: a.so loaded twice, the invalid b.so tried in
    between, then a shutdown: a.so was opened twice and closed twice. *)
Lemma modules_opened_and_closed_balance_witness :
  let r :=
    run_ops Demo.MAGIC Demo.VERSION_MIN Demo.VERSION false
      Demo.g_module_open
      [ OpLoad "Input/a.so"; OpLoad "Input/b.so"; OpLoad "Input/a.so";
        OpUnloadAll ] (mkGlobals []) in
  (times_opened Demo.a_so (events r) + times_held Demo.a_so (mkGlobals []) =
   times_closed Demo.a_so (events r) + times_held Demo.a_so (globals r))%nat.
Proof.
  exact (modules_opened_and_closed_balance Demo.MAGIC Demo.VERSION_MIN
           Demo.VERSION false Demo.g_module_open
           [ OpLoad "Input/a.so"; OpLoad "Input/b.so"; OpLoad "Input/a.so";
             OpUnloadAll ] (mkGlobals []) Demo.a_so eq_refl).
Defined.

(** X12 on the demo platform: a.so, a regular file of mode 0100755, is
    registered; old.so, a directory of mode 040755, is passed over. *)
Lemma scan_plugin_func_by_file_type_witness :
  events (scan_plugin_func Demo.g_stat ".so" "Input/a.so" "a.so"
            (mkGlobals []))
  = [EvRegister "Input/a.so" 1400000000] /\
  events (scan_plugin_func Demo.g_stat ".so" "Input/old.so" "old.so"
            (mkGlobals []))
  = [].
Proof.
  split.
  - apply (scan_plugin_func_by_file_type Demo.g_stat ".so" "Input/a.so"
             "a.so" (mkGlobals []) (mkGStatBuf 33261 1400000000) 493);
      [reflexivity | reflexivity | lia | reflexivity].
  - apply (scan_plugin_func_by_file_type Demo.g_stat ".so" "Input/old.so"
             "old.so" (mkGlobals []) (mkGStatBuf 16877 1400000002) 493);
      [reflexivity | reflexivity | lia | reflexivity].
Defined.

(** X14 on the demo tree: start-up registers a.so of Input and C.SO of
    Output, in that order, and reports gone.so. *)
Lemma plugin_system_init_registers_candidates_witness :
  registrations (events (DemoTree.startup (mkGlobals []))) =
    [ ("/usr/lib/audacious/Input/a.so"%string, 1400000000);
      ("/usr/lib/audacious/Output/C.SO"%string, 1400000003) ] /\
  stderr_lines (events (DemoTree.startup (mkGlobals []))) =
    [StatFailed "/usr/lib/audacious/Input/gone.so"].
Proof.
  exact (plugin_system_init_registers_candidates DemoTree.g_stat true ".so"
           (fun _ => DemoTree.base) Demo.filename_build DemoTree.dir_entries
           (mkGlobals []) eq_refl).
Defined.

(** X15 on the demo platform: a.so, then d.so whose init refuses, a.so
    again, a shutdown, then e.so: every hook ran in an open module, every
    close was of an open module, and e.so alone is open at the end. *)
Lemma hooks_run_in_open_modules_witness :
  exists open',
    modules_used_while_open []
      (events
         (run_ops Demo.MAGIC Demo.VERSION_MIN Demo.VERSION false
            Demo.g_module_open
            [ OpLoad "Input/a.so"; OpLoad "Effect/d.so"; OpLoad "Input/a.so";
              OpUnloadAll; OpLoad "Output/e.so" ] (mkGlobals [])))
    = Some open' /\
    (false = false -> Permutation open' [Demo.e_so]).
Proof.
  exact (hooks_run_in_open_modules Demo.MAGIC Demo.VERSION_MIN Demo.VERSION
           false Demo.g_module_open
           [ OpLoad "Input/a.so"; OpLoad "Effect/d.so"; OpLoad "Input/a.so";
             OpUnloadAll; OpLoad "Output/e.so" ] (mkGlobals [])
           (Forall_nil _)).
Defined.
